(** * OpenAPIService: endpoint lookup and schema reference resolution

    A shallow embedding of [src/swagger/OpenAPIService.ts].  The parsed
    OpenAPI document is a record; JavaScript objects that are read by key
    are finite maps of their own properties, read through [Object.prototype]
    where the service reads a name it was given; objects that are iterated
    ([paths], [properties]) are association lists in enumeration order;
    objects that the service builds by assignment have their own properties
    and their prototype; a [Set<string>] is a duplicate-free list in
    insertion order.  Strings are given by their UTF-8 bytes and ordered by
    their UTF-16 code units.  Exceptions and the unbounded recursion of
    [getReferencesByObject] are explicit in the result type. *)

From Stdlib Require Import String Ascii List Lia Permutation DecimalString NArith.
From stdpp Require Import base option list gmap strings sorting.

Set Warnings "-register-all,-clear-no-such-hyp".

(** ** Results of calls *)

(** What unwinds the JavaScript stack: the [Error] thrown by the
    constructor, and the two [TypeError]s of reading a property of
    [undefined] that the service does not guard. *)
Inductive Error : Type :=
| UnsupportedVersion        (* new Error(`Only OpenApi version 3 supported yet.`) *)
| UndefinedResponse         (* operation.responses[200] is undefined, [.content] read *)
| UndefinedRef.             (* reference.$ref is undefined, [.split] called *)

(** [OutOfFuel] stands for a recursion deeper than the budget given to the
    call; a call that is [OutOfFuel] for every budget never returns. *)
Inductive Outcome (A : Type) : Type :=
| Returns (a : A)
| Throws (e : Error)
| OutOfFuel.

Arguments Returns {A} a.
Arguments Throws {A} e.
Arguments OutOfFuel {A}.

#[global] Instance Outcome_ret : MRet Outcome := @Returns.
#[global] Instance Outcome_bind : MBind Outcome := fun A B f m =>
  match m with
  | Returns a => f a
  | Throws e => Throws e
  | OutOfFuel => OutOfFuel
  end.

(** [forEach] with a callback that updates a captured variable and may throw. *)
Fixpoint forEachM {S A : Type} (f : S → A → Outcome S) (s : S) (l : list A) : Outcome S :=
  match l with
  | [] => Returns s
  | x :: l' => s' ← f s x; forEachM f s' l'
  end.

(** [Array.prototype.map] with a callback that may throw. *)
Fixpoint mapArrayM {A B : Type} (f : A → Outcome B) (l : list A) : Outcome (list B) :=
  match l with
  | [] => Returns []
  | x :: l' => y ← f x; ys ← mapArrayM f l'; Returns (y :: ys)
  end.

(** ** Strings *)

(** [s.split(sep)] for a one-character separator; the result is never empty. *)
Fixpoint split (sep : ascii) (s : string) : list string :=
  match s with
  | EmptyString => [EmptyString]
  | String c s' =>
      if Ascii.eqb c sep then EmptyString :: split sep s'
      else match split sep s' with
           | [] => [String c EmptyString]
           | h :: t => String c h :: t
           end
  end.

(** Modelled from the spec: [first] and [last] of [src/utils], which is not
    among the sources; the first and the last element of an array,
    [undefined] when it is empty. *)
Module utils.
Definition first {A : Type} (l : list A) : option A := head l.
Definition last {A : Type} (l : list A) : option A := list.last l.
End utils.

(** Whether a character occurs in a string. *)
Fixpoint has_char (c : ascii) (s : string) : bool :=
  match s with
  | EmptyString => false
  | String c' s' => Ascii.eqb c' c || has_char c s'
  end.

(** [key.endsWith(endpoint)]: the last [endpoint.length] characters of [key]
    are [endpoint]. *)
Definition endsWith (key endpoint : string) : bool :=
  (String.length endpoint <=? String.length key) &&
  String.eqb
    (substring (String.length key - String.length endpoint) (String.length endpoint) key)
    endpoint.

(** *** The code units of a string

    A JavaScript string is a sequence of 16-bit code units; a [string]
    here holds its UTF-8 bytes, as in the text of the document.  A lone
    surrogate is taken in its three-byte form, so that every sequence of
    code units is that of some [string]; a byte that starts no sequence
    stands for U+FFFD, as a decoder gives it. *)

(** The six bits that a continuation byte (10xxxxxx) carries. *)
Definition continuation (c : ascii) : option N :=
  let b := N_of_ascii c in
  if ((128 <=? b) && (b <? 192))%N then Some (b - 128)%N else None.

Definition replacementCharacter : N := 65533.

(** The code units of a code point: itself below U+10000, a surrogate
    pair from there on. *)
Definition unitsOf (codePoint : N) : list N :=
  if (codePoint <? 65536)%N then [codePoint]
  else [(55296 + (codePoint - 65536) / 1024)%N; (56320 + (codePoint - 65536) mod 1024)%N].

Fixpoint codeUnits (s : string) : list N :=
  match s with
  | EmptyString => []
  | String c0 s0 =>
      let b0 := N_of_ascii c0 in
      if (b0 <? 128)%N then b0 :: codeUnits s0
      else
        match s0 with
        | String c1 s1 =>
            match continuation c1 with
            | Some x1 =>
                if ((192 <=? b0) && (b0 <? 224))%N
                then ((b0 - 192) * 64 + x1)%N :: codeUnits s1
                else
                  match s1 with
                  | String c2 s2 =>
                      match continuation c2 with
                      | Some x2 =>
                          if ((224 <=? b0) && (b0 <? 240))%N
                          then ((b0 - 224) * 4096 + x1 * 64 + x2)%N :: codeUnits s2
                          else
                            match s2 with
                            | String c3 s3 =>
                                match continuation c3 with
                                | Some x3 =>
                                    if ((240 <=? b0) && (b0 <? 248))%N
                                    then unitsOf ((b0 - 240) * 262144 + x1 * 4096
                                                  + x2 * 64 + x3)%N ++ codeUnits s3
                                    else replacementCharacter :: codeUnits s0
                                | None => replacementCharacter :: codeUnits s0
                                end
                            | EmptyString => replacementCharacter :: codeUnits s0
                            end
                      | None => replacementCharacter :: codeUnits s0
                      end
                  | EmptyString => replacementCharacter :: codeUnits s0
                  end
            | None => replacementCharacter :: codeUnits s0
            end
        | EmptyString => [replacementCharacter]
        end
  end.

(** [px < py] on strings (IsLessThan of ECMAScript): false when [py] is a
    prefix of [px], true when [px] is a proper prefix of [py], and
    otherwise decided by the code units at the first index where the two
    differ. *)
Fixpoint isLessThan (px py : list N) : bool :=
  match px, py with
  | _, [] => false
  | [], _ :: _ => true
  | m :: px', n :: py' => if (m =? n)%N then isLessThan px' py' else (m <? n)%N
  end.

(** The order of [Array.prototype.sort] without a comparator: [a] stays
    before [b] unless [b < a] as strings. *)
Definition string_le (a b : string) : Prop :=
  isLessThan (codeUnits b) (codeUnits a) = false.

#[global] Instance string_le_dec : RelDecision string_le.
Proof. intros a b. unfold string_le. apply _. Defined.

(** ** Objects

    What every plain object inherits: the names of the properties of
    [Object.prototype] (ECMAScript, Properties of the Object Prototype
    Object, with its Annex B). *)
Definition Object_prototype_names : list string :=
  ["constructor"; "__defineGetter__"; "__defineSetter__"; "hasOwnProperty";
   "__lookupGetter__"; "__lookupSetter__"; "isPrototypeOf"; "propertyIsEnumerable";
   "toString"; "valueOf"; "__proto__"; "toLocaleString"].

(** What reading a name in an object with values in [A] gives: the own
    property; or, the object having none of that name, what it inherits
    under it (a function, and [Object.prototype] itself for [__proto__]);
    or [undefined]. *)
Inductive JSValue (A : Type) : Type :=
| Defined (a : A)
| Inherited (name : string)
| Undefined.

Arguments Defined {A} a.
Arguments Inherited {A} name.
Arguments Undefined {A}.

(** [object[key]], on an object as [JSON.parse] gives it: its prototype is
    [Object.prototype], and every key of the text is an own property. *)
Definition getProperty {A : Type} (object : gmap string A) (key : string) : JSValue A :=
  match object !! key with
  | Some a => Defined a
  | None => if decide (key ∈ Object_prototype_names) then Inherited key else Undefined
  end.

(** Whether a value is an object: an entry of the document is one (a
    schema, an operation), and so is what is inherited (a function, or
    [Object.prototype]); [undefined] is not. *)
Definition isObjectValue {A : Type} (v : JSValue A) : bool :=
  match v with Undefined => false | _ => true end.

(** An object that starts as [{}] and is written by assignments
    [store[key] = v]: its own properties, and its prototype when an
    assignment has changed it ([None] is [Object.prototype]). *)
Record JSObject (V : Type) : Type := { own : gmap string V; prototype : option V }.

Arguments own {V} _.
Arguments prototype {V} _.

#[global] Instance JSObject_empty {V} : Empty (JSObject V) :=
  {| own := ∅; prototype := None |}.
#[global] Instance JSObject_lookup {V} : Lookup string V (JSObject V) :=
  λ key store, own store !! key.

(** [store[key] = v], for [v] an object when [object] says so.  The
    assignment adds or replaces an own property, except under the name
    [__proto__]: that one reaches the setter that [Object.prototype] has
    for it, which makes [v] the prototype of [store] when [v] is an
    object, does nothing when it is not, and adds no own property. *)
Definition assign {V : Type} (object : V → bool) (store : JSObject V) (key : string) (v : V)
    : JSObject V :=
  if decide (key = "__proto__") then
    if object v then {| own := own store; prototype := Some v |} else store
  else {| own := <[key := v]> (own store); prototype := prototype store |}.

(** ** The document *)

(** Modelled from the spec: the schema interfaces of [src/swagger/v3/schemas]
    are not among the sources; a schema is one of the four shapes the
    resolution tells apart, or anything else (a schema of a primitive
    type). *)
Inductive Schema : Type :=
| SReference (ref : string)                                (* { $ref } *)
| SArray (items : Schema)                                  (* { type: 'array', items } *)
| SObject (properties : option (list (string * Schema)))   (* { type: 'object', properties? } *)
| SAllOf (allOf : list Schema)                             (* { allOf } *)
| SOther.

(** Modelled from the spec: the predicates of [OpenAPITypesGuard], which is
    not among the sources; each recognises one shape, and none holds of
    [undefined]. *)
Definition isReference (schema : option Schema) : bool :=
  match schema with Some (SReference _) => true | _ => false end.
Definition isCollection (schema : option Schema) : bool :=
  match schema with Some (SArray _) => true | _ => false end.
Definition isObject (schema : option Schema) : bool :=
  match schema with Some (SObject _) => true | _ => false end.
Definition isAllOf (schema : option Schema) : bool :=
  match schema with Some (SAllOf _) => true | _ => false end.

(** Field reads on a schema; [undefined] where the shape has no such field. *)
Definition items_of (schema : option Schema) : option Schema :=
  match schema with Some (SArray i) => Some i | _ => None end.
Definition allOf_of (schema : Schema) : list Schema :=
  match schema with SAllOf l => l | _ => [] end.

Record MediaType : Type := { schema : option Schema }.
Record IOpenAPI3Parameter : Type := { param_schema : option Schema }.
Record RequestBody : Type := { request_content : gmap string MediaType }.
Record Response : Type := { response_content : option (gmap string MediaType) }.

Record IOpenAPI3Operation : Type := {
  tags : option (list string);
  parameters : option (list IOpenAPI3Parameter);
  requestBody : option RequestBody;
  responses : gmap string Response
}.

(** Only the four methods the service reads are kept. *)
Record PathItem : Type := {
  http_get : option IOpenAPI3Operation;
  http_post : option IOpenAPI3Operation;
  http_put : option IOpenAPI3Operation;
  http_delete : option IOpenAPI3Operation
}.

(** [components_schemas] holds the own properties of [components.schemas];
    [components] is taken to be there, as the interface declares it. *)
Record IOpenAPI3 : Type := {
  openapi : option string;
  paths : option (list (string * PathItem));
  components_schemas : gmap string Schema
}.

(** ** Sets of strings, in insertion order *)

Definition Set_add (s : list string) (k : string) : list string :=
  if decide (k ∈ s) then s else s ++ [k].
Definition new_Set (l : list string) : list string := foldl Set_add [] l.

(** ** The service *)

Definition SUPPORTED_VERSION : nat := 3.

(** [Number.prototype.toString] on a natural number: its decimal digits. *)
Definition toString (n : nat) : string := NilZero.string_of_uint (Nat.to_uint n).

Section Service.
Variable spec : IOpenAPI3.

Definition majorVersion : option string :=
  match openapi spec with
  | None => None
  | Some v => if String.eqb v "" then None else utils.first (split "." v)
  end.

Definition getEndpoints : list string :=
  match paths spec with
  | None => []
  | Some ps => merge_sort string_le (fst <$> ps)
  end.

Definition getOperationByEndpoint (endpoint : string) : option IOpenAPI3Operation :=
  match paths spec with
  | None => None
  | Some ps =>
      match List.find (λ '(key, _), endsWith key endpoint) ps with
      | None => None
      | Some (_, pathItem) =>
          match http_get pathItem with
          | Some o => Some o
          | None =>
              match http_post pathItem with
              | Some o => Some o
              | None =>
                  match http_put pathItem with
                  | Some o => Some o
                  | None => http_delete pathItem
                  end
              end
          end
      end
  end.

Definition getTagsByEndpoint (endpoint : string) : list string :=
  match getOperationByEndpoint endpoint with
  | Some o => default [] (tags o)
  | None => []
  end.

Definition getSchemaKey (reference : Schema) : Outcome string :=
  match reference with
  | SReference ref => Returns (default "" (utils.last (split "/" ref)))  (* schemaName below *)
  | _ => Throws UndefinedRef
  end.

Definition getSchemaFromContent (refs : list Schema) (schema : option Schema) : list Schema :=
  if isCollection schema && isReference (items_of schema) then
    match items_of schema with Some i => refs ++ [i] | None => refs end
  else if isReference schema then
    match schema with Some r => refs ++ [r] | None => refs end
  else refs.

Definition jsonSchema (content : gmap string MediaType) : option Schema :=
  content !! "application/json" ≫= schema.

Definition getReferencesByOperation (operation : IOpenAPI3Operation) : Outcome (list Schema) :=
  let refs :=
    foldl (λ refs z, if isReference (param_schema z)
                     then match param_schema z with Some r => refs ++ [r] | None => refs end
                     else refs)
          [] (default [] (parameters operation)) in
  let refs :=
    getSchemaFromContent refs
      (requestBody operation ≫= λ b, jsonSchema (request_content b)) in
  match responses operation !! "200" with
  | None => Throws UndefinedResponse
  | Some r =>
      Returns (getSchemaFromContent refs (response_content r ≫= jsonSchema))
  end.

(** The references one property contributes. *)
Definition propertyRefs (z : Schema) : list Schema :=
  if isCollection (Some z) && isReference (items_of (Some z)) then
    match items_of (Some z) with Some i => [i] | None => [] end
  else if isReference (Some z) then [z]
  else if isAllOf (Some z) then allOf_of z
  else [].

(** [properties] is [object.properties] of the object schema given; the
    test [isObject(schema)] before the recursive call is the match on
    [SObject], which also gives the properties of the schema found (what
    a name inherits is a function, or [Object.prototype]: none has the
    shape of an object schema). *)
Fixpoint getReferencesByObject (fuel : nat)
    (properties : option (list (string * Schema))) : Outcome (list Schema) :=
  match fuel with
  | 0 => OutOfFuel
  | S fuel' =>
      forEachM (λ refs z,
        forEachM (λ refs x,
          let refs := refs ++ [x] in
          key ← getSchemaKey x;
          match getProperty (components_schemas spec) key with
          | Defined (SObject p) =>
              sub ← getReferencesByObject fuel' p;
              Returns (refs ++ sub)
          | _ => Returns refs
          end) refs (propertyRefs z))
        [] (snd <$> default [] properties)
  end.

Definition getSchemas (fuel : nat) (refs : list Schema)
    : Outcome (JSObject (JSValue Schema)) :=
  ks ← mapArrayM getSchemaKey refs;
  let keys := new_Set ks in
  keysFromObjects ←
    forEachM (λ keysFromObjects z,
      match getProperty (components_schemas spec) z with
      | Defined (SObject p) =>
          rs ← getReferencesByObject fuel p;
          forEachM (λ acc x, k ← getSchemaKey x; Returns (Set_add acc k))
                   keysFromObjects rs
      | _ => Returns keysFromObjects
      end) [] keys;
  Returns (foldl (λ store key,
                    assign isObjectValue store key (getProperty (components_schemas spec) key))
                 ∅ (new_Set (keys ++ keysFromObjects))).

(** The spread [{ ...store, ...schemas }] is a new object with the own
    properties of the two, those of [schemas] over those of [store], and
    [Object.prototype] for prototype: the result is given by its own
    properties. *)
Definition getSchemasByEndpoints (fuel : nat) (endpoints : list string)
    : Outcome (gmap string (JSValue Schema)) :=
  if decide (length endpoints = 0) then Returns ∅
  else
    forEachM (λ store operation,
      match operation with
      | None => Returns store
      | Some o =>
          refs ← getReferencesByOperation o;
          schemas ← getSchemas fuel refs;
          Returns (own schemas ∪ store)
      end) ∅ (getOperationByEndpoint <$> endpoints).

(** An operation is an object. *)
Definition getOperationsByEndpoints (endpoints : list string)
    : JSObject IOpenAPI3Operation :=
  if decide (length endpoints = 0) then ∅
  else
    foldl (λ store endpoint,
      match getOperationByEndpoint endpoint with
      | None => store
      | Some o => assign (λ _, true) store endpoint o
      end) ∅ endpoints.

End Service.

(** The constructor, on the document that [JSON.parse] gives: it throws
    unless the major version is the supported one, and the instance holds
    the document. *)
Record OpenAPIService : Type := { service_spec : IOpenAPI3 }.

Definition new_OpenAPIService (json : IOpenAPI3) : Outcome OpenAPIService :=
  if decide (majorVersion json ≠ Some (toString SUPPORTED_VERSION))
  then Throws UnsupportedVersion
  else Returns {| service_spec := json |}.

(** ** Notions the statements use *)

(** [endpoint] is a suffix of [key]. *)
Definition isSuffixOf (endpoint key : string) : Prop :=
  ∃ pre, key = pre +:+ endpoint.

(** The first entry that is present, in the order given. *)
Fixpoint firstPresent {A : Type} (l : list (option A)) : option A :=
  match l with
  | [] => None
  | Some a :: _ => Some a
  | None :: l' => firstPresent l'
  end.

(** [token] is the part of [version] before its first ['.'] (all of it when
    it has none). *)
Definition majorToken (version token : string) : Prop :=
  has_char "." token = false ∧
  (version = token ∨ ∃ rest, version = token +:+ String "." rest).

(** The dictionary order of two sequences of code units: the first is a
    prefix of the second, or it has the smaller code unit at the first
    place where they differ. *)
Definition lexicographic (u v : list N) : Prop :=
  (∃ w, v = u ++ w) ∨
  (∃ p a b u' v', u = p ++ a :: u' ∧ v = p ++ b :: v' ∧ (a < b)%N).

(** The path keys of the document, in enumeration order. *)
Definition pathKeys (spec : IOpenAPI3) : list string :=
  (default [] (paths spec)).*1.

(** The named schema a reference pointer designates: the part after its
    last ['/']. *)
Definition schemaName (ref : string) : string :=
  default "" (utils.last (split "/" ref)).

(** All the references the properties of an object contribute, in the
    order in which [getReferencesByObject] meets them. *)
Definition allPropertyRefs (properties : option (list (string * Schema))) : list Schema :=
  (default [] properties).*2 ≫= propertyRefs.

(** The two list traversals of [getReferencesByObject] as one: the results
    of [f] on the elements, concatenated, up to the first that fails. *)
Fixpoint flatMapM {A B : Type} (f : A → Outcome (list B)) (l : list A) : Outcome (list B) :=
  match l with
  | [] => Returns []
  | x :: l' => r ← f x; rs ← flatMapM f l'; Returns (r ++ rs)
  end.

Section Graph.
Variable spec : IOpenAPI3.

(** What the inner callback of [getReferencesByObject] appends for one
    contributed reference [x]. *)
Definition expand (fuel : nat) (x : Schema) : Outcome (list Schema) :=
  key ← getSchemaKey x;
  match getProperty (components_schemas spec) key with
  | Defined (SObject p) =>
      sub ← getReferencesByObject spec fuel p;
      Returns (x :: sub)
  | _ => Returns [x]
  end.

(** The properties of an object contribute a reference to the schema
    named [k]. *)
Definition refersTo (properties : option (list (string * Schema))) (k : string) : Prop :=
  ∃ x, x ∈ allPropertyRefs properties ∧ getSchemaKey x = Returns k.

(** The properties of an object contribute something that is not a
    reference (an inline member of an [allOf]). *)
Definition hasInlineMember (properties : option (list (string * Schema))) : Prop :=
  ∃ x, x ∈ allPropertyRefs properties ∧ isReference (Some x) = false.

(** The reference graph of the components table: the object schema
    named [k] refers to the schema named [k']. *)
Definition edge (k k' : string) : Prop :=
  ∃ p, components_schemas spec !! k = Some (SObject p) ∧ refersTo p k'.

(** The object [q] is [p] itself or a named object schema that the
    references of [p] lead to. *)
Definition reachesObject (p q : option (list (string * Schema))) : Prop :=
  q = p ∨
  ∃ k0 k', refersTo p k0 ∧ rtc edge k0 k' ∧
           components_schemas spec !! k' = Some (SObject q).

(** From the schema named [k0] one reaches a named object schema with a
    member that is not a reference. *)
Definition reachesInline (k0 : string) : Prop :=
  ∃ k q, rtc edge k0 k ∧ components_schemas spec !! k = Some (SObject q) ∧
         hasInlineMember q.

(** [k] is one of the names [ks] or a schema reached from one of them. *)
Definition inClosure (ks : list string) (k : string) : Prop :=
  ∃ k0, k0 ∈ ks ∧ rtc edge k0 k.

(** [ks] are the names designated by the references found directly in
    an operation. *)
Definition operationKeys (operation : IOpenAPI3Operation) (ks : list string) : Prop :=
  ∃ refs, getReferencesByOperation operation = Returns refs ∧
          Forall2 (λ x k, getSchemaKey x = Returns k) refs ks.

(** [k] is named directly by the operation of one of the endpoints, or
    reached from a schema that is. *)
Definition endpointClosure (endpoints : list string) (k : string) : Prop :=
  ∃ endpoint operation ks,
    endpoint ∈ endpoints ∧
    getOperationByEndpoint spec endpoint = Some operation ∧
    operationKeys operation ks ∧ inClosure ks k.

(** No object schema reaches itself. *)
Definition Acyclic : Prop := ∀ k, ¬ tc edge k k.

(** Every member of an [allOf] property of a named object schema is a
    reference. *)
Definition allOfReferences : Prop :=
  ∀ k p, components_schemas spec !! k = Some (SObject p) → ¬ hasInlineMember p.
End Graph.



(** ** The closure in a single pass *)

(** The resolution as the specification asks for it: a depth-first
    transitive closure that keeps the set of the schema names visited, so
    that a name met again is not expanded again.  Only the assembly of the
    closure differs from the service; the references found directly in an
    operation are those of [getReferencesByOperation]. *)
Module SinglePass.

(** The part of a reference pointer after its final ['/']. *)
Fixpoint afterLastSlash (pointer : string) : string :=
  match pointer with
  | EmptyString => EmptyString
  | String c rest =>
      if has_char "/" rest then afterLastSlash rest
      else if Ascii.eqb c "/" then rest
      else String c rest
  end.

(** The references a property contributes: the items of a collection of
    references, a reference itself, every member of a composition;
    nothing for anything else. *)
Definition collected (property : Schema) : list Schema :=
  match property with
  | SArray (SReference r) => [SReference r]
  | SReference r => [SReference r]
  | SAllOf members => members
  | _ => []
  end.

(** The name a collected member designates; a member that is not a
    reference designates none, and the resolution fails on it. *)
Definition referenceName (member : Schema) : Outcome string :=
  match member with
  | SReference r => Returns (afterLastSlash r)
  | _ => Throws UndefinedRef
  end.

Section Closure.
Variable spec : IOpenAPI3.

(** Visit [name]: nothing to do when it was visited; otherwise it is
    marked, and when it names an object schema, the names its
    properties contribute are visited in turn.  [depth] bounds the
    nesting of the visits. *)
Fixpoint visit (depth : nat) (visited : gset string) (name : string)
    : Outcome (gset string) :=
  if decide (name ∈ visited) then Returns visited
  else
    match components_schemas spec !! name with
    | Some (SObject properties) =>
        match depth with
        | 0 => OutOfFuel
        | S depth' =>
            names ← mapArrayM referenceName
                      ((default [] properties).*2 ≫= collected);
            forEachM (visit depth') ({[name]} ∪ visited) names
        end
    | _ => Returns ({[name]} ∪ visited)
    end.

(** The definition that the table has for a name, and none for a name
    that it does not have. *)
Definition definitionOf (name : string) : JSValue Schema :=
  match components_schemas spec !! name with
  | Some definition => Defined definition
  | None => Undefined
  end.

(** The closure of a list of references, with the definitions of the
    table; a name that the table does not have is kept, with no
    definition.  Nested visits are of distinct object schemas of the
    table, so its size bounds their depth. *)
Definition closureOf (refs : list Schema) : Outcome (gmap string (JSValue Schema)) :=
  names ← mapArrayM referenceName refs;
  visited ← forEachM (visit (size (components_schemas spec))) ∅ names;
  Returns (set_to_map (λ k, (k, definitionOf k)) visited).

Definition schemasForEndpoints (endpoints : list string)
    : Outcome (gmap string (JSValue Schema)) :=
  forEachM (λ store operation,
    match operation with
    | None => Returns store
    | Some o =>
        refs ← getReferencesByOperation o;
        schemas ← closureOf refs;
        Returns (schemas ∪ store)
    end) ∅ (getOperationByEndpoint spec <$> endpoints).

(** What a visit, or a row of visits, from the names [names] establishes:
    the set grows by names reached only, what is new in it is closed under
    the references and free of inline members; it fails only on an inline
    member in reach; and it does not exceed its depth. *)
Definition visited_ok (visited : gset string) (names : list string)
    (r : Outcome (gset string)) : Prop :=
  match r with
  | Returns visited' =>
      visited ⊆ visited' ∧
      (∀ n, n ∈ names → n ∈ visited') ∧
      (∀ v, v ∈ visited' → v ∈ visited ∨ ∃ n, n ∈ names ∧ rtc (edge spec) n v) ∧
      (∀ v v', v ∈ visited' → v ∉ visited → edge spec v v' → v' ∈ visited') ∧
      (∀ v q, v ∈ visited' → v ∉ visited →
              components_schemas spec !! v = Some (SObject q) → ¬ hasInlineMember q)
  | Throws e => e = UndefinedRef ∧ ∃ n, n ∈ names ∧ reachesInline spec n
  | OutOfFuel => False
  end.
End Closure.
End SinglePass.

(** ** Example documents *)

Module Examples.
Definition pointer (name : string) : Schema :=
  SReference ("#/components/schemas/" +:+ name).

Definition jsonContent (s : Schema) : gmap string MediaType :=
  {[ "application/json" := {| schema := Some s |} ]}.

Definition okResponses : gmap string Response :=
  {[ "200" := {| response_content := None |} ]}.

Definition createdResponses : gmap string Response :=
  {[ "201" := {| response_content := None |} ]}.

Definition operationWithBody (s : Schema) (resp : gmap string Response)
    : IOpenAPI3Operation :=
  {| tags := None; parameters := None;
     requestBody := Some {| request_content := jsonContent s |};
     responses := resp |}.

Definition plainOperation (t : string) : IOpenAPI3Operation :=
  {| tags := Some [t]; parameters := None; requestBody := None;
     responses := okResponses |}.

Definition postOnly (o : IOpenAPI3Operation) : PathItem :=
  {| http_get := None; http_post := Some o; http_put := None; http_delete := None |}.

Definition noMethod : PathItem :=
  {| http_get := None; http_post := None; http_put := None; http_delete := None |}.

Definition document (ps : list (string * PathItem)) (schemas : gmap string Schema)
    : IOpenAPI3 :=
  {| openapi := Some "3.0.1"; paths := Some ps; components_schemas := schemas |}.

(** [User] has a property that refers to [Address]. *)
Definition usersDocument : IOpenAPI3 :=
  document [("/api/users", postOnly (operationWithBody (pointer "User") okResponses))]
    {[ "User" := SObject (Some [("name", SOther); ("address", pointer "Address")]);
       "Address" := SObject (Some [("street", SOther)]) ]}.

(** [A] and [B] refer to each other. *)
Definition cyclicDocument : IOpenAPI3 :=
  document [("/a", postOnly (operationWithBody (pointer "A") okResponses))]
    {[ "A" := SObject (Some [("b", pointer "B")]);
       "B" := SObject (Some [("a", pointer "A")]) ]}.


(** The path that comes first is last in sorted order, and the second
    path has two of the methods. *)
Definition orderedDocument : IOpenAPI3 :=
  document [("/v2/users", postOnly (plainOperation "v2"));
            ("/api/users",
             {| http_get := Some (plainOperation "list");
                http_post := Some (plainOperation "create");
                http_put := None; http_delete := None |});
            ("/api/none", noMethod)] ∅.

(** The body refers to a schema that the table does not have. *)
Definition danglingDocument : IOpenAPI3 :=
  document [("/ghosts", postOnly (operationWithBody (pointer "Ghost") okResponses))] ∅.

(** The second path has an operation without a [200] response, the third
    path has no operation that the service reads. *)
Definition mixedDocument : IOpenAPI3 :=
  document [("/api/users", postOnly (operationWithBody (pointer "User") okResponses));
            ("/api/created", postOnly (operationWithBody (pointer "User") createdResponses));
            ("/api/none", noMethod);
            ("/v2/api/users", postOnly (plainOperation "second"))]
    {[ "User" := SObject (Some [("address", pointer "Address")]);
       "Address" := SObject None ]}.


(** The parameters refer to two names that the table does not have and
    that every object inherits. *)
Definition inheritedDocument : IOpenAPI3 :=
  document [("/ghosts",
             postOnly {| tags := None;
                         parameters := Some [ {| param_schema := Some (pointer "constructor") |};
                                              {| param_schema := Some (pointer "__proto__") |} ];
                         requestBody := None;
                         responses := okResponses |})] ∅.


(** Two paths beyond ASCII: U+FF5E, one code unit, and U+1F600, the
    surrogate pair D83D DE00. *)
Definition unicodeDocument : IOpenAPI3 :=
  document [("/～", noMethod); ("/😀", noMethod)] ∅.

(** A path that ends with [__proto__]. *)
Definition protoPathDocument : IOpenAPI3 :=
  document [("/api/users", postOnly (plainOperation "users"));
            ("/api/__proto__", postOnly (plainOperation "proto"))] ∅.
End Examples.

(** ** Further example documents *)

Module MoreExamples.
(** An operation with references at the three places it is searched, and
    at places it is not. *)
Definition richOperation : IOpenAPI3Operation :=
  {| tags := Some ["orders"; "admin"];
     parameters := Some [ {| param_schema := Some (Examples.pointer "Filter") |};
                          {| param_schema := Some SOther |};
                          {| param_schema := None |} ];
     requestBody :=
       Some {| request_content :=
                 {[ "application/json" :=
                      {| schema := Some (SArray (Examples.pointer "Item")) |};
                    "text/plain" := {| schema := Some (Examples.pointer "Ignored") |} ]} |};
     responses :=
       {[ "200" := {| response_content :=
                        Some (Examples.jsonContent (Examples.pointer "Result")) |};
          "404" := {| response_content :=
                        Some (Examples.jsonContent (Examples.pointer "Problem")) |} ]} |}.

(** An [allOf] property with an inline member, behind a reference. *)
Definition inlineDocument : IOpenAPI3 :=
  Examples.document
    [("/pets", Examples.postOnly
                 (Examples.operationWithBody (Examples.pointer "Pet") Examples.okResponses))]
    {[ "Pet" := SObject (Some [("base", SAllOf [Examples.pointer "Animal"; SObject None])]);
       "Animal" := SOther ]}.

(** Two endpoints with schemas of their own and one in common. *)
Definition shopDocument : IOpenAPI3 :=
  Examples.document
    [("/api/users", Examples.postOnly
                      (Examples.operationWithBody (Examples.pointer "User")
                         Examples.okResponses));
     ("/api/orders", Examples.postOnly richOperation)]
    {[ "User" := SObject (Some [("address", Examples.pointer "Address")]);
       "Address" := SObject None;
       "Item" := SObject (Some [("buyer", Examples.pointer "User")]);
       "Result" := SOther ]}.
End MoreExamples.

(** * Properties *)

(** ** Strings *)

Lemma split_not_nil sep s : split sep s ≠ [].
Proof.
  induction s as [|c s IH]; simpl; [done|].
  destruct (Ascii.eqb c sep); [done|]. by destruct (split sep s).
Qed.

Lemma split_no_sep sep s : has_char sep s = false → split sep s = [s].
Proof.
  induction s as [|c s IH]; simpl; [done|].
  intros [Hc Hs]%orb_false_iff. rewrite Hc, (IH Hs). done.
Qed.

Lemma split_app_sep sep pre rest :
  has_char sep pre = false →
  split sep (pre +:+ String sep rest) = pre :: split sep rest.
Proof.
  induction pre as [|c pre IH]; simpl.
  - intros _. by rewrite Ascii.eqb_refl.
  - intros [Hc Hs]%orb_false_iff. rewrite Hc, (IH Hs). done.
Qed.

Lemma split_app_segments sep pre rest :
  ∃ h t, split sep (pre +:+ String sep rest) = h :: t ++ split sep rest.
Proof.
  induction pre as [|c pre (h & t & IH)]; simpl.
  - rewrite Ascii.eqb_refl. by exists "", [].
  - rewrite IH. destruct (Ascii.eqb c sep).
    + by exists "", (h :: t).
    + by exists (String c h), t.
Qed.

Lemma last_split_app sep pre rest :
  utils.last (split sep (pre +:+ String sep rest)) = utils.last (split sep rest).
Proof.
  destruct (split_app_segments sep pre rest) as (h & t & ->).
  pose proof (split_not_nil sep rest) as Hne.
  destruct (split sep rest) as [|x k]; [done|].
  unfold utils.last. change (h :: t ++ x :: k) with ((h :: t) ++ x :: k). by rewrite last_app_cons.
Qed.

Lemma getSchemaKey_pointer pre name :
  has_char "/" name = false →
  getSchemaKey (SReference (pre +:+ String "/" name)) = Returns name.
Proof.
  intros H. simpl. by rewrite last_split_app, split_no_sep.
Qed.

Lemma substring_all s : substring 0 (String.length s) s = s.
Proof. induction s as [|c s IH]; simpl; [done|]. by rewrite IH. Qed.

Lemma substring_app_r pre s : substring (String.length pre) (String.length s) (pre +:+ s) = s.
Proof. induction pre as [|c pre IH]; simpl; [apply substring_all|done]. Qed.

Lemma substring_split n m s :
  n + m = String.length s → s = substring 0 n s +:+ substring n m s.
Proof.
  revert n m. induction s as [|c s IH]; intros n m H; simpl in *.
  - destruct n, m; done.
  - destruct n as [|n]; simpl.
    + destruct m as [|m]; [done|]. simpl. f_equal.
      replace m with (String.length s) by lia. by rewrite substring_all.
    + change (String c s = String c (substring 0 n s +:+ substring n m s)).
      f_equal. apply IH. lia.
Qed.

Lemma length_app s t : String.length (s +:+ t) = String.length s + String.length t.
Proof. induction s; simpl; [done|]. by rewrite IHs. Qed.

Lemma endsWith_suffix key endpoint :
  endsWith key endpoint = true ↔ ∃ pre, key = pre +:+ endpoint.
Proof.
  unfold endsWith. rewrite andb_true_iff, Nat.leb_le, String.eqb_eq. split.
  - intros [Hle Hsub].
    exists (substring 0 (String.length key - String.length endpoint) key).
    etrans; [apply (substring_split (String.length key - String.length endpoint)
                      (String.length endpoint)); lia|].
    by rewrite Hsub.
  - intros [pre ->]. rewrite length_app. split; [lia|].
    replace (String.length pre + String.length endpoint - String.length endpoint)
      with (String.length pre) by lia.
    apply substring_app_r.
Qed.

(** *** The order of the strings *)

Lemma isLessThan_nil px : isLessThan px [] = false.
Proof. by destruct px. Qed.
Lemma isLessThan_total px py : isLessThan py px = false ∨ isLessThan px py = false.
Proof.
  revert py. induction px as [|m px IH]; intros py; [left; apply isLessThan_nil|].
  destruct py as [|n py]; [by right|]. simpl.
  rewrite (N.eqb_sym m n). destruct (N.eqb_spec n m) as [->|Hne]; [apply IH|].
  destruct (N.ltb_spec n m), (N.ltb_spec m n); auto; lia.
Qed.

Lemma isLessThan_trans px py pz :
  isLessThan py px = false → isLessThan pz py = false → isLessThan pz px = false.
Proof.
  revert py pz. induction px as [|m px IH]; intros py pz; [intros _ _; apply isLessThan_nil|].
  destruct py as [|n py]; [done|]. destruct pz as [|o pz]; [done|]. simpl.
  destruct (N.eqb_spec n m) as [Hnm|Hnm], (N.eqb_spec o n) as [Hon|Hon],
    (N.eqb_spec o m) as [Hom|Hom]; rewrite ?N.ltb_ge; try lia; try done.
  apply IH.
Qed.

#[global] Instance string_le_total : Total string_le.
Proof. intros a b. apply isLessThan_total. Qed.

#[global] Instance string_le_trans : Transitive string_le.
Proof. intros a b c. apply isLessThan_trans. Qed.

Lemma lexicographic_cons a u v : lexicographic (a :: u) (a :: v) ↔ lexicographic u v.
Proof.
  split.
  - intros [[w [= ->]]|(p & x & y & u' & v' & Hu & Hv & Hlt)]; [left; by exists w|].
    destruct p as [|c p]; simplify_eq/=; [lia|]. right. by exists p, x, y, u', v'.
  - intros [[w ->]|(p & x & y & u' & v' & -> & -> & Hlt)]; [left; by exists w|].
    right. by exists (a :: p), x, y, u', v'.
Qed.

(** Not being less, for IsLessThan, is the dictionary order. *)
Lemma isLessThan_lexicographic u v : isLessThan v u = false ↔ lexicographic u v.
Proof.
  revert v. induction u as [|a u IH]; intros v.
  - rewrite isLessThan_nil. split; [|done]. intros _. left. by exists v.
  - destruct v as [|b v]; simpl.
    + split; [done|].
      intros [[w [=]]|(p & x & y & u' & v' & _ & Hv & _)]. by destruct p.
    + destruct (N.eqb_spec b a) as [->|Hne].
      * by rewrite lexicographic_cons.
      * rewrite N.ltb_ge. split.
        -- intros Hle. right. exists [], a, b, u, v. split_and!; [done..|lia].
        -- intros [[w [= -> _]]|(p & x & y & u' & v' & Hu & Hv & Hlt)]; [done|].
           destruct p as [|c p]; simplify_eq/=; lia.
Qed.

(** ** Listing the endpoints *)

Lemma StronglySorted_weaken {A} (R R' : A → A → Prop) (l : list A) :
  (∀ x y, R x y → R' x y) → StronglySorted R l → StronglySorted R' l.
Proof.
  intros HR. induction 1 as [|x l _ IH Hx]; constructor; [done|].
  eapply Forall_impl; [exact Hx|]. intros y. apply HR.
Qed.

(** C9: [getEndpoints] is the path keys sorted ascending: a permutation of
    the keys (so each key exactly once, the keys of an object being
    distinct) in which every key comes before the keys that follow it in
    the dictionary order of their UTF-16 code units; a document without
    paths, or with no path, gives the empty list. *)
Theorem getEndpoints_sorted_keys (spec : IOpenAPI3) :
  StronglySorted (λ a b, lexicographic (codeUnits a) (codeUnits b)) (getEndpoints spec) ∧
  getEndpoints spec ≡ₚ pathKeys spec ∧
  (NoDup (pathKeys spec) → NoDup (getEndpoints spec)) ∧
  (pathKeys spec = [] → getEndpoints spec = []).
Proof.
  unfold getEndpoints, pathKeys.
  destruct (paths spec) as [ps|]; simpl.
  - pose proof (merge_sort_Permutation string_le ps.*1) as Hperm.
    split_and!.
    + apply (StronglySorted_weaken string_le); [|apply (StronglySorted_merge_sort string_le)].
      intros a b. apply isLessThan_lexicographic.
    + done.
    + intros Hnd. by rewrite Hperm.
    + intros Hnil. by rewrite Hnil.
  - split_and!; [constructor|done|done|done].
Qed.


(** ** Looking an operation up *)

Lemma find_first_match {A} (P : A → bool) before x after :
  Forall (λ y, P y = false) before → P x = true →
  List.find P (before ++ x :: after) = Some x.
Proof.
  intros Hb Hx. induction Hb as [|y l Hy _ IH]; simpl.
  - by rewrite Hx.
  - by rewrite Hy.
Qed.

Lemma find_no_match {A} (P : A → bool) l :
  Forall (λ y, P y = false) l → List.find P l = None.
Proof. induction 1 as [|y l Hy _ IH]; simpl; [done|]. by rewrite Hy. Qed.

Lemma endsWith_false key endpoint :
  ¬ isSuffixOf endpoint key → endsWith key endpoint = false.
Proof.
  intros H. destruct (endsWith key endpoint) eqn:E; [|done].
  by apply endsWith_suffix in E.
Qed.

Lemma no_suffix_no_match endpoint (ps : list (string * PathItem)) :
  Forall (λ p, ¬ isSuffixOf endpoint p.1) ps →
  Forall (λ p, (let '(key, _) := p in endsWith key endpoint) = false) ps.
Proof.
  intros H. eapply Forall_impl; [done|].
  intros [key item] Hkey. by apply endsWith_false.
Qed.

(** C3: the operation of an endpoint is that of the first path key, in the
    enumeration order of [paths], that ends with the endpoint: the first
    present of its GET, POST, PUT and DELETE operations; and there is none
    when no path key ends with the endpoint (or the document has no
    paths), or the matching path item has none of the four. *)
Theorem getOperationByEndpoint_first_suffix_match (spec : IOpenAPI3) (endpoint : string) :
  (∀ before key pathItem after,
     paths spec = Some (before ++ (key, pathItem) :: after) →
     Forall (λ p, ¬ isSuffixOf endpoint p.1) before →
     isSuffixOf endpoint key →
     getOperationByEndpoint spec endpoint =
       firstPresent [http_get pathItem; http_post pathItem;
                     http_put pathItem; http_delete pathItem]) ∧
  (Forall (λ p, ¬ isSuffixOf endpoint p.1) (default [] (paths spec)) →
     getOperationByEndpoint spec endpoint = None).
Proof.
  split.
  - intros before key pathItem after Hpaths Hbefore Hkey.
    unfold getOperationByEndpoint. rewrite Hpaths.
    rewrite (find_first_match _ before (key, pathItem) after).
    + simpl. by destruct (http_get pathItem), (http_post pathItem),
        (http_put pathItem), (http_delete pathItem).
    + by apply no_suffix_no_match.
    + by apply endsWith_suffix.
  - intros Hnone. unfold getOperationByEndpoint.
    destruct (paths spec) as [ps|]; [|done]. simpl in Hnone.
    by rewrite find_no_match by by apply no_suffix_no_match.
Qed.

(** ** The constructor *)

Lemma first_split_token version token :
  majorToken version token → utils.first (split "." version) = Some token.
Proof.
  intros [Hno [->|[rest ->]]].
  - by rewrite split_no_sep.
  - by rewrite split_app_sep.
Qed.

Lemma split_first_token version :
  ∃ token, utils.first (split "." version) = Some token ∧ majorToken version token.
Proof.
  induction version as [|c v (token & Hfirst & Hno & Htok)]; simpl.
  - exists "". split; [done|]. split; [done|]. by left.
  - destruct (Ascii.eqb c ".") eqn:Hc.
    + apply Ascii.eqb_eq in Hc as ->. exists "". split; [done|]. split; [done|].
      right. by exists v.
    + destruct (split "." v) as [|h t] eqn:Hsplit; [by apply split_not_nil in Hsplit|].
      simpl in Hfirst. injection Hfirst as ->.
      exists (String c token). split; [done|]. split.
      * simpl. by rewrite Hc.
      * destruct Htok as [->|[rest ->]]; [by left|right; by exists rest].
Qed.

Lemma majorToken_unique version t1 t2 :
  majorToken version t1 → majorToken version t2 → t1 = t2.
Proof.
  intros H1%first_split_token H2%first_split_token. congruence.
Qed.

Lemma majorVersion_Some (spec : IOpenAPI3) token :
  majorVersion spec = Some token ↔
  ∃ version, openapi spec = Some version ∧ version ≠ "" ∧ majorToken version token.
Proof.
  unfold majorVersion. destruct (openapi spec) as [v|]; [|split; [done|by intros (? & ? & _)]].
  destruct (String.eqb_spec v "") as [->|Hne].
  - split; [done|]. by intros (? & [= <-] & ? & _).
  - split.
    + intros Hfirst. exists v. split_and!; [done..|].
      destruct (split_first_token v) as (t & Ht & Htok). congruence.
    + intros (? & [= <-] & _ & Htok). by apply first_split_token.
Qed.

(** C6: construction succeeds exactly when the document declares a version
    whose part before the first ['.'] is ["3"], and then the instance holds
    the document; in every other case, an absent version included, it
    throws and there is no instance. *)
Theorem constructor_accepts_major_3_only (json : IOpenAPI3) :
  ((∃ service, new_OpenAPIService json = Returns service) ↔
   (∃ version, openapi json = Some version ∧ majorToken version "3")) ∧
  (∀ service, new_OpenAPIService json = Returns service → service_spec service = json) ∧
  (¬ (∃ version, openapi json = Some version ∧ majorToken version "3") →
   new_OpenAPIService json = Throws UnsupportedVersion) ∧
  (openapi json = None → new_OpenAPIService json = Throws UnsupportedVersion).
Proof.
  assert (majorVersion json = Some (toString SUPPORTED_VERSION) ↔
          ∃ version, openapi json = Some version ∧ majorToken version "3") as Hiff.
  { rewrite majorVersion_Some. split; [intros (v & Hv & _ & Htok); by exists v|].
    intros (v & Hv & Htok). exists v. split_and!; [done| |done].
    intros ->. destruct Htok as [_ [?|[? ?]]]; done. }
  unfold new_OpenAPIService. case_decide as Hmajor.
  - split_and!.
    + split; [by intros [? ?]|]. intros H. by apply Hiff in H.
    + done.
    + done.
    + done.
  - split_and!.
    + split; [by intros _; apply Hiff|by eexists].
    + by intros ? [= <-].
    + intros Hno. destruct Hno. by apply Hiff.
    + intros Hnone. apply Hiff in Hmajor as (? & ? & _). congruence.
Qed.


(** ** Outcomes *)

Lemma bind_Returns {A B} (f : A → Outcome B) (m : Outcome A) b :
  m ≫= f = Returns b ↔ ∃ a, m = Returns a ∧ f a = Returns b.
Proof.
  destruct m as [a| |]; simpl; split.
  - intros. by exists a.
  - by intros (? & [= <-] & ?).
  - done.
  - by intros (? & ? & _).
  - done.
  - by intros (? & ? & _).
Qed.

Lemma bind_Throws {A B} (f : A → Outcome B) (m : Outcome A) e :
  m ≫= f = Throws e ↔ m = Throws e ∨ ∃ a, m = Returns a ∧ f a = Throws e.
Proof.
  destruct m as [a| |]; simpl; split.
  - intros. right. by exists a.
  - by intros [?|(? & [= <-] & ?)].
  - intros [= ->]. by left.
  - by intros [[= ->]|(? & ? & _)].
  - done.
  - by intros [?|(? & ? & _)].
Qed.

Lemma bind_OutOfFuel {A B} (f : A → Outcome B) (m : Outcome A) :
  m ≫= f = OutOfFuel ↔ m = OutOfFuel ∨ ∃ a, m = Returns a ∧ f a = OutOfFuel.
Proof.
  destruct m as [a| |]; simpl; split.
  - intros. right. by exists a.
  - by intros [?|(? & [= <-] & ?)].
  - done.
  - by intros [?|(? & ? & _)].
  - intros. by left.
  - done.
Qed.

Lemma flatMapM_Returns {A B} (f : A → Outcome (list B)) l r :
  flatMapM f l = Returns r ↔
  ∃ rs, Forall2 (λ x rx, f x = Returns rx) l rs ∧ r = concat rs.
Proof.
  revert r. induction l as [|x l IH]; intros r; simpl.
  - split.
    + intros [= <-]. exists []. by split; [constructor|].
    + intros (rs & Hrs & ->). by inversion Hrs.
  - rewrite bind_Returns. split.
    + intros (rx & Hx & (rl & Hl & [= <-])%bind_Returns).
      apply IH in Hl as (rs & Hrs & ->). exists (rx :: rs). by split; [constructor|].
    + intros (rs & Hrs & ->). inversion Hrs as [|? rx ? rs' Hx Hl]; subst.
      exists rx. split; [done|]. apply bind_Returns. exists (concat rs').
      split; [|done]. apply IH. by exists rs'.
Qed.

Lemma flatMapM_Returns_elem {A B} (f : A → Outcome (list B)) l r x :
  flatMapM f l = Returns r → x ∈ l → ∃ rx, f x = Returns rx ∧ rx ⊆ r.
Proof.
  intros (rs & Hrs & ->)%flatMapM_Returns Hx.
  induction Hrs as [|y ry l rs Hy _ IH]; [by apply elem_of_nil in Hx|].
  apply elem_of_cons in Hx as [->|Hx].
  - exists ry. split; [done|]. simpl. set_solver.
  - destruct (IH Hx) as (rx & ? & ?). exists rx. split; [done|]. simpl. set_solver.
Qed.

Lemma flatMapM_Returns_inv {A B} (f : A → Outcome (list B)) l r y :
  flatMapM f l = Returns r → y ∈ r → ∃ x rx, x ∈ l ∧ f x = Returns rx ∧ y ∈ rx.
Proof.
  intros (rs & Hrs & ->)%flatMapM_Returns Hy.
  induction Hrs as [|x rx l rs Hx _ IH]; [by apply elem_of_nil in Hy|].
  simpl in Hy. apply elem_of_app in Hy as [Hy|Hy].
  - exists x, rx. split_and!; [left|done|done].
  - destruct (IH Hy) as (x' & rx' & ? & ? & ?). exists x', rx'. split_and!; [by right|done|done].
Qed.

Lemma flatMapM_Throws {A B} (f : A → Outcome (list B)) l e :
  flatMapM f l = Throws e → ∃ x, x ∈ l ∧ f x = Throws e.
Proof.
  induction l as [|x l IH]; simpl; [done|].
  intros [Hx|(rx & Hx & [Hl|(? & _ & ?)]%bind_Throws)]%bind_Throws.
  - exists x. split; [left|done].
  - destruct (IH Hl) as (x' & ? & ?). exists x'. split; [by right|done].
  - done.
Qed.

Lemma flatMapM_OutOfFuel {A B} (f : A → Outcome (list B)) l :
  flatMapM f l = OutOfFuel → ∃ x, x ∈ l ∧ f x = OutOfFuel.
Proof.
  induction l as [|x l IH]; simpl; [done|].
  intros [Hx|(rx & Hx & [Hl|(? & _ & ?)]%bind_OutOfFuel)]%bind_OutOfFuel.
  - exists x. split; [left|done].
  - destruct (IH Hl) as (x' & ? & ?). exists x'. split; [by right|done].
  - done.
Qed.

Lemma flatMapM_not_Returns {A B} (f : A → Outcome (list B)) l x :
  x ∈ l → (∀ rx, f x ≠ Returns rx) → ∀ r, flatMapM f l ≠ Returns r.
Proof.
  intros Hx Hf r Hr. destruct (flatMapM_Returns_elem _ _ _ _ Hr Hx) as (rx & ? & _).
  by eapply Hf.
Qed.

Lemma flatMapM_app {A B} (f : A → Outcome (list B)) l1 l2 :
  flatMapM f (l1 ++ l2) = r1 ← flatMapM f l1; r2 ← flatMapM f l2; Returns (r1 ++ r2).
Proof.
  induction l1 as [|x l1 IH]; simpl.
  - by destruct (flatMapM f l2).
  - destruct (f x); simpl; [|done..].
    rewrite IH. destruct (flatMapM f l1); simpl; [|done..].
    destruct (flatMapM f l2); simpl; [|done..]. by rewrite app_assoc.
Qed.

Lemma flatMapM_bind {A B C} (f : B → Outcome (list C)) (g : A → list B) l :
  flatMapM (λ z, flatMapM f (g z)) l = flatMapM f (l ≫= g).
Proof.
  induction l as [|z l IH]; simpl; [done|].
  by rewrite flatMapM_app, IH.
Qed.

Lemma forEachM_append {A B} (g : list B → A → Outcome (list B)) (h : A → Outcome (list B)) :
  (∀ s x, g s x = r ← h x; Returns (s ++ r)) →
  ∀ s l, forEachM g s l = r ← flatMapM h l; Returns (s ++ r).
Proof.
  intros Hg s l. revert s. induction l as [|x l IH]; intros s; simpl.
  - by rewrite app_nil_r.
  - rewrite Hg. destruct (h x); simpl; [|done..].
    rewrite IH. destruct (flatMapM h l); simpl; [|done..].
    by rewrite app_assoc.
Qed.

(** ** The recursion of [getReferencesByObject] *)

Lemma getProperty_Defined {A} (object : gmap string A) key a :
  getProperty object key = Defined a ↔ object !! key = Some a.
Proof.
  unfold getProperty. destruct (object !! key); [|case_decide]; split; congruence.
Qed.

Lemma getProperty_absent {A} (object : gmap string A) key :
  object !! key = None →
  getProperty object key =
    if decide (key ∈ Object_prototype_names) then Inherited key else Undefined.
Proof. unfold getProperty. by intros ->. Qed.

(** The cases of the test [isObject(schema)] on what the table gives for
    [k]: an object schema [q], with [H] for the entry, or anything else. *)
Ltac property_cases k q H :=
  unfold getProperty;
  destruct (components_schemas _ !! k) as [[| |q| |]|] eqn:H;
  [..|destruct (decide (k ∈ Object_prototype_names))].

Section Resolution.
Variable spec : IOpenAPI3.
Abbreviation schemas := (components_schemas spec).

Lemma getReferencesByObject_S fuel p :
  getReferencesByObject spec (S fuel) p = flatMapM (expand spec fuel) (allPropertyRefs p).
Proof.
  unfold allPropertyRefs. rewrite <- flatMapM_bind. simpl.
  rewrite (forEachM_append _ (λ z, flatMapM (expand spec fuel) (propertyRefs z))).
  - by destruct (flatMapM _ _).
  - intros s z. apply forEachM_append. clear. intros s x.
    unfold expand. destruct (getSchemaKey x) as [key| |]; simpl; [|done..].
    property_cases key q Hq; simpl; try done.
    destruct (getReferencesByObject spec fuel q); simpl; [|done..].
    by rewrite <- app_assoc.
Qed.

Lemma getSchemaKey_Returns x k :
  getSchemaKey x = Returns k ↔ ∃ ref, x = SReference ref ∧ k = schemaName ref.
Proof.
  destruct x; simpl; split; try done; try by intros (? & ? & _).
  - intros [= <-]. by eexists.
  - by intros (? & [= <-] & ->).
Qed.

Lemma getSchemaKey_Throws x e :
  getSchemaKey x = Throws e ↔ e = UndefinedRef ∧ isReference (Some x) = false.
Proof.
  destruct x; simpl; (split; [by intros [= <-]|by intros [-> ?]]).
Qed.

Lemma getSchemaKey_not_OutOfFuel x : getSchemaKey x ≠ OutOfFuel.
Proof. by destruct x. Qed.

Lemma getSchemaKey_outcome x :
  (∃ k, getSchemaKey x = Returns k ∧ isReference (Some x) = true) ∨
  (getSchemaKey x = Throws UndefinedRef ∧ isReference (Some x) = false).
Proof. destruct x; simpl; eauto. Qed.

(** The three ways [expand] ends. *)
Lemma expand_Returns fuel x rx :
  expand spec fuel x = Returns rx ↔
  ∃ k, getSchemaKey x = Returns k ∧
    ((∃ q sub, schemas !! k = Some (SObject q) ∧
               getReferencesByObject spec fuel q = Returns sub ∧ rx = x :: sub) ∨
     ((∀ q, schemas !! k ≠ Some (SObject q)) ∧ rx = [x])).
Proof.
  unfold expand. rewrite bind_Returns. apply exist_proper. intros k.
  apply and_iff_compat_l.
  property_cases k q Hk;
    try (split; [intros [= <-]; by right|by intros [(? & ? & ? & _)|[_ ->]]]).
  rewrite bind_Returns. split.
  - intros (sub & Hsub & [= <-]). left. by exists q, sub.
  - intros [(? & sub & [= <-] & ? & ->)|[Hno _]]; [by exists sub|by destruct (Hno q)].
Qed.

Lemma expand_Throws fuel x e :
  expand spec fuel x = Throws e ↔
  getSchemaKey x = Throws e ∨
  ∃ k q, getSchemaKey x = Returns k ∧ schemas !! k = Some (SObject q) ∧
         getReferencesByObject spec fuel q = Throws e.
Proof.
  unfold expand. rewrite bind_Throws. apply or_iff_compat_l. split.
  - intros (k & Hk & Hm). exists k. revert Hm.
    property_cases k q Hq; try done. intros Hm.
    apply bind_Throws in Hm as [Hm|(? & _ & ?)]; [|done]. by exists q.
  - intros (k & q & Hk & Hq & Hm). exists k. split; [done|].
    apply getProperty_Defined in Hq as ->. apply bind_Throws. by left.
Qed.

Lemma expand_OutOfFuel fuel x :
  expand spec fuel x = OutOfFuel ↔
  ∃ k q, getSchemaKey x = Returns k ∧ schemas !! k = Some (SObject q) ∧
         getReferencesByObject spec fuel q = OutOfFuel.
Proof.
  unfold expand. rewrite bind_OutOfFuel. split.
  - intros [Hk|(k & Hk & Hm)]; [by apply getSchemaKey_not_OutOfFuel in Hk|].
    exists k. revert Hm. property_cases k q Hq; try done. intros Hm.
    apply bind_OutOfFuel in Hm as [Hm|(? & _ & ?)]; [|done]. by exists q.
  - intros (k & q & Hk & Hq & Hm). right. exists k. split; [done|].
    apply getProperty_Defined in Hq as ->. apply bind_OutOfFuel. by left.
Qed.

Lemma expand_Returns_head fuel x rx : expand spec fuel x = Returns rx → x ∈ rx.
Proof.
  intros (k & _ & [(? & ? & _ & _ & ->)|[_ ->]])%expand_Returns; left.
Qed.

Lemma reachesObject_step p k q q' :
  refersTo p k → schemas !! k = Some (SObject q) →
  reachesObject spec q q' → reachesObject spec p q'.
Proof.
  intros Hp Hk [->|(k0 & k' & Hq & Hrtc & Hk')]; right.
  - by exists k, k.
  - exists k, k'. split_and!; [done| |done].
    apply rtc_l with k0; [|done]. by exists q.
Qed.

(** Every reference returned is one that the object reaches. *)
Lemma getReferencesByObject_sound fuel p refs y :
  getReferencesByObject spec fuel p = Returns refs → y ∈ refs →
  ∃ k0 k', refersTo p k0 ∧ rtc (edge spec) k0 k' ∧ getSchemaKey y = Returns k'.
Proof.
  revert p refs y. induction fuel as [|fuel IH]; intros p refs y; [done|].
  rewrite getReferencesByObject_S. intros Hr Hy.
  destruct (flatMapM_Returns_inv _ _ _ _ Hr Hy) as (x & rx & Hx & Hex & Hyx).
  apply expand_Returns in Hex as (k & Hk & [(q & sub & Hq & Hsub & ->)|[_ ->]]).
  - apply elem_of_cons in Hyx as [->|Hyx].
    + exists k, k. split_and!; [by exists x|done|done].
    + destruct (IH _ _ _ Hsub Hyx) as (k1 & k' & Hq1 & Hrtc & Hy').
      exists k, k'. split_and!; [by exists x| |done].
      apply rtc_l with k1; [|done]. by exists q.
  - apply list_elem_of_singleton in Hyx as ->.
    exists k, k. split_and!; [by exists x|done|done].
Qed.

(** Every schema the object reaches is named by a returned reference. *)
Lemma getReferencesByObject_complete fuel p refs k0 k' :
  getReferencesByObject spec fuel p = Returns refs →
  refersTo p k0 → rtc (edge spec) k0 k' →
  ∃ y, y ∈ refs ∧ getSchemaKey y = Returns k'.
Proof.
  revert p refs k0 k'. induction fuel as [|fuel IH]; intros p refs k0 k'; [done|].
  rewrite getReferencesByObject_S. intros Hr (x & Hx & Hk) Hrtc.
  destruct (flatMapM_Returns_elem _ _ _ _ Hr Hx) as (rx & Hex & Hsub).
  apply rtc_inv in Hrtc as [<-|(k1 & (q & Hq & Hq1) & Hrtc)].
  - exists x. split; [|done]. by eapply Hsub, expand_Returns_head.
  - apply expand_Returns in Hex as (k & Hk' & [(q' & sub & Hq' & Hsub' & ->)|[Hno _]]);
      assert (k = k0) as -> by congruence; [|by destruct (Hno q)].
    assert (q' = q) as -> by congruence.
    destruct (IH _ _ _ _ Hsub' Hq1 Hrtc) as (y & Hy & Hyk).
    exists y. split; [|done]. apply Hsub. by right.
Qed.

(** A call that returns has returned on every object it reaches. *)
Lemma getReferencesByObject_Returns_reach fuel p refs q :
  getReferencesByObject spec fuel p = Returns refs → reachesObject spec p q →
  ∃ fuel' sub, fuel' ≤ fuel ∧ getReferencesByObject spec fuel' q = Returns sub.
Proof.
  revert p refs. induction fuel as [|fuel IH]; intros p refs; [done|].
  intros Hr [->|(k0 & k' & (x & Hx & Hk) & Hrtc & Hq)]; [by exists (S fuel), refs|].
  rewrite getReferencesByObject_S in Hr.
  destruct (flatMapM_Returns_elem _ _ _ _ Hr Hx) as (rx & Hex & _).
  apply expand_Returns in Hex as (k & Hk' & Hcase). assert (k = k0) as -> by congruence.
  assert (∃ q0, schemas !! k0 = Some (SObject q0) ∧ reachesObject spec q0 q)
    as (q0 & Hq0 & Hreach).
  { apply rtc_inv in Hrtc as [<-|(k1 & (q0 & Hq0 & Hq1) & Hrtc)].
    - exists q. split; [done|by left].
    - exists q0. split; [done|]. right. by exists k1, k'. }
  destruct Hcase as [(q' & sub & Hq' & Hsub & _)|[Hno _]]; [|by destruct (Hno q0)].
  assert (q' = q0) as -> by congruence.
  destruct (IH _ _ Hsub Hreach) as (fuel' & sub' & ? & ?).
  exists fuel', sub'. split; [lia|done].
Qed.

Lemma getReferencesByObject_Returns_references fuel p refs :
  getReferencesByObject spec fuel p = Returns refs → ¬ hasInlineMember p.
Proof.
  destruct fuel as [|fuel]; [done|]. rewrite getReferencesByObject_S.
  intros Hr (x & Hx & Hinline).
  destruct (flatMapM_Returns_elem _ _ _ _ Hr Hx) as (rx & Hex & _).
  apply expand_Returns in Hex as (k & (ref & -> & _)%getSchemaKey_Returns & _).
  done.
Qed.

(** A call that returns has met references only. *)
Lemma getReferencesByObject_Returns_wellformed fuel p refs q :
  getReferencesByObject spec fuel p = Returns refs → reachesObject spec p q →
  ¬ hasInlineMember q.
Proof.
  intros Hr Hq.
  destruct (getReferencesByObject_Returns_reach _ _ _ _ Hr Hq) as (fuel' & sub & _ & Hsub).
  by eapply getReferencesByObject_Returns_references.
Qed.

(** A call throws only on meeting something that is not a reference. *)
Lemma getReferencesByObject_Throws fuel p e :
  getReferencesByObject spec fuel p = Throws e →
  e = UndefinedRef ∧ ∃ q, reachesObject spec p q ∧ hasInlineMember q.
Proof.
  revert p. induction fuel as [|fuel IH]; intros p; [done|].
  rewrite getReferencesByObject_S.
  intros (x & Hx & Hexpand)%flatMapM_Throws.
  apply expand_Throws in Hexpand
    as [[-> Hinline]%getSchemaKey_Throws|(k & q & Hk & Hq & Hthrow)].
  - split; [done|]. exists p. split; [by left|by exists x].
  - destruct (IH _ Hthrow) as (-> & q' & Hreach & Hinline). split; [done|].
    exists q'. split; [|done]. eapply reachesObject_step; [by exists x|done..].
Qed.

Lemma reachesObject_names k0 p q :
  schemas !! k0 = Some (SObject p) →
  reachesObject spec p q ↔ ∃ k, rtc (edge spec) k0 k ∧ schemas !! k = Some (SObject q).
Proof.
  intros Hp. split.
  - intros [->|(k1 & k' & Hk1 & Hrtc & Hq)].
    + by exists k0.
    + exists k'. split; [|done]. apply rtc_l with k1; [|done]. by exists p.
  - intros (k & [<-|(k1 & (p' & Hp' & Hk1) & Hrtc)]%rtc_inv & Hq).
    + left. congruence.
    + right. exists k1, k. assert (p' = p) as -> by congruence. done.
Qed.

(** With no cycle among the object schemas, a budget of as many calls
    as the table has entries is never exhausted. *)
Lemma getReferencesByObject_enough_fuel fuel (visited : gset string) k p :
  Acyclic spec →
  schemas !! k = Some (SObject p) →
  (∀ v, v ∈ visited → tc (edge spec) v k) →
  size (dom schemas ∖ visited) ≤ fuel →
  getReferencesByObject spec fuel p ≠ OutOfFuel.
Proof.
  intros Hacyclic. revert visited k p.
  induction fuel as [|fuel IH]; intros visited k p Hk Hvis Hsize.
  - assert (k ∈ dom schemas ∖ visited) as Hin.
    { apply elem_of_difference. split; [by apply elem_of_dom|].
      intros Hv. by apply (Hacyclic k), Hvis. }
    assert (size (dom schemas ∖ visited) ≠ 0); [|lia].
    apply size_non_empty_iff. set_solver.
  - rewrite getReferencesByObject_S.
    intros (x & Hx & (k1 & q & Hk1 & Hq & Hout)%expand_OutOfFuel)%flatMapM_OutOfFuel.
    assert (edge spec k k1) as Hedge by (exists p; split; [done|by exists x]).
    assert (k ∉ visited) as Hnew.
    { intros Hv. by apply (Hacyclic k), Hvis. }
    apply (IH ({[k]} ∪ visited) k1 q); [done| |..|done].
    + intros v [->%elem_of_singleton|Hv]%elem_of_union.
      * by apply tc_once.
      * eapply tc_r; [by apply Hvis|done].
    + assert (dom schemas ∖ ({[k]} ∪ visited) ⊂ dom schemas ∖ visited) as Hsub.
      { assert (k ∈ dom schemas) by by apply elem_of_dom. set_solver. }
      apply subset_size in Hsub. lia.
Qed.

Lemma reaches_cycle_object k :
  (∃ k', rtc (edge spec) k k' ∧ tc (edge spec) k' k') →
  ∃ k1 p, schemas !! k = Some (SObject p) ∧ refersTo p k1 ∧
          ∃ k', rtc (edge spec) k1 k' ∧ tc (edge spec) k' k'.
Proof.
  intros (k' & [<-|(k1 & (p & Hp & Hk1) & Hrtc)]%rtc_inv & Htc).
  - inversion Htc as [? ? (p & Hp & Hk1)|? k1 ? (p & Hp & Hk1) Hrest]; subst.
    + exists k, p. split_and!; [done..|]. by exists k.
    + exists k1, p. split_and!; [done..|]. exists k. split; [by apply tc_rtc|done].
  - exists k1, p. split_and!; [done..|]. by exists k'.
Qed.

(** An object schema from which a cycle of the reference graph is
    reached is never resolved, whatever the budget. *)
Lemma getReferencesByObject_cycle fuel k p :
  schemas !! k = Some (SObject p) →
  (∃ k', rtc (edge spec) k k' ∧ tc (edge spec) k' k') →
  ∀ refs, getReferencesByObject spec fuel p ≠ Returns refs.
Proof.
  revert k p. induction fuel as [|fuel IH]; intros k p Hp Hcycle refs; [done|].
  destruct (reaches_cycle_object k Hcycle) as (k1 & p' & Hp' & (x & Hx & Hk1) & Hcycle1).
  assert (p' = p) as -> by congruence.
  destruct (reaches_cycle_object k1 Hcycle1) as (_ & q & Hq & _).
  rewrite getReferencesByObject_S. apply flatMapM_not_Returns with x; [done|].
  intros rx (k' & Hk' & Hcase)%expand_Returns.
  assert (k' = k1) as -> by congruence.
  destruct Hcase as [(q' & sub & Hq' & Hsub & _)|[Hno _]]; [|by destruct (Hno q)].
  by eapply (IH k1 q').
Qed.

(** *** Sets in insertion order *)

Lemma elem_of_Set_add s x k : k ∈ Set_add s x ↔ k ∈ s ∨ k = x.
Proof.
  unfold Set_add. case_decide; [|set_solver].
  split; [by left|]. intros [?| ->]; done.
Qed.

Lemma elem_of_foldl_Set_add s l k : k ∈ foldl Set_add s l ↔ k ∈ s ∨ k ∈ l.
Proof.
  revert s. induction l as [|x l IH]; intros s; simpl.
  - set_solver.
  - rewrite IH, elem_of_Set_add. set_solver.
Qed.

Lemma elem_of_new_Set l k : k ∈ new_Set l ↔ k ∈ l.
Proof. unfold new_Set. rewrite elem_of_foldl_Set_add. set_solver. Qed.

Lemma NoDup_Set_add s x : NoDup s → NoDup (Set_add s x).
Proof.
  intros Hs. unfold Set_add. case_decide; [done|].
  apply NoDup_app. split_and!; [done|set_solver|apply NoDup_singleton].
Qed.

Lemma NoDup_new_Set l : NoDup (new_Set l).
Proof.
  unfold new_Set. generalize (NoDup_nil_2 (A := string)).
  generalize (@nil string). induction l as [|x l IH]; intros s Hs; simpl; [done|].
  by apply IH, NoDup_Set_add.
Qed.

(** *** The store built from a list of keys *)

Lemma JSObject_lookup_own {V} (store : JSObject V) k : store !! k = own store !! k.
Proof. done. Qed.

Lemma JSObject_lookup_empty {V} k : (∅ : JSObject V) !! k = None.
Proof. done. Qed.

(** An assignment is seen under its key, unless the key is [__proto__]. *)
Lemma lookup_assign {V} (object : V → bool) (store : JSObject V) key v k :
  assign object store key v !! k =
    if decide (k = key ∧ k ≠ "__proto__") then Some v else store !! k.
Proof.
  rewrite !JSObject_lookup_own. unfold assign.
  destruct (decide (key = "__proto__")) as [->|Hkey].
  - rewrite decide_False by naive_solver. by destruct (object v).
  - simpl. destruct (decide (k = key)) as [->|Hne].
    + rewrite decide_True by done. apply lookup_insert_eq.
    + rewrite decide_False by naive_solver. by apply lookup_insert_ne.
Qed.

Lemma lookup_store {V} (object : V → bool) (g : string → V) (l : list string)
    (m : JSObject V) k :
  foldl (λ store key, assign object store key (g key)) m l !! k
  = if decide (k ∈ l ∧ k ≠ "__proto__") then Some (g k) else m !! k.
Proof.
  revert m. induction l as [|x l IH]; intros m; simpl; [done|].
  - rewrite IH, lookup_assign.
    destruct (decide (k ∈ l ∧ k ≠ "__proto__")) as [[Hl Hp]|Hn].
    + rewrite decide_True; [done|]. split; [by right|done].
    + destruct (decide (k = x ∧ k ≠ "__proto__")) as [[-> Hp]|Hn'].
      * rewrite decide_True; [done|]. split; [left|done].
      * rewrite decide_False; [done|]. intros [[->|?]%elem_of_cons ?]; naive_solver.
Qed.

(** *** Keys of a list of references *)

Lemma mapArrayM_Returns {A B} (f : A → Outcome B) l r :
  mapArrayM f l = Returns r ↔ Forall2 (λ x y, f x = Returns y) l r.
Proof.
  revert r. induction l as [|x l IH]; intros r; simpl.
  - split; [intros [= <-]; constructor|by inversion 1].
  - rewrite bind_Returns. split.
    + intros (y & Hy & (ys & Hys & [= <-])%bind_Returns).
      constructor; [done|by apply IH].
    + inversion 1 as [|? y ? ys Hy Hys]; subst.
      exists y. split; [done|]. apply bind_Returns. exists ys. split; [by apply IH|done].
Qed.

Lemma mapArrayM_Throws {A B} (f : A → Outcome B) l e :
  mapArrayM f l = Throws e → ∃ x, x ∈ l ∧ f x = Throws e.
Proof.
  induction l as [|x l IH]; simpl; [done|].
  intros [Hx|(y & Hy & [Hl|(? & _ & ?)]%bind_Throws)]%bind_Throws.
  - exists x. split; [left|done].
  - destruct (IH Hl) as (x' & ? & ?). exists x'. split; [by right|done].
  - done.
Qed.

Lemma mapArrayM_OutOfFuel {A B} (f : A → Outcome B) l :
  mapArrayM f l = OutOfFuel → ∃ x, x ∈ l ∧ f x = OutOfFuel.
Proof.
  induction l as [|x l IH]; simpl; [done|].
  intros [Hx|(y & Hy & [Hl|(? & _ & ?)]%bind_OutOfFuel)]%bind_OutOfFuel.
  - exists x. split; [left|done].
  - destruct (IH Hl) as (x' & ? & ?). exists x'. split; [by right|done].
  - done.
Qed.

Lemma keyed_elem_of (xs : list Schema) (ks : list string) k :
  Forall2 (λ x k, getSchemaKey x = Returns k) xs ks →
  k ∈ ks ↔ ∃ x, x ∈ xs ∧ getSchemaKey x = Returns k.
Proof.
  induction 1 as [|x k' xs ks Hx _ IH].
  - split; [by intros ?%elem_of_nil|by intros (? & ?%elem_of_nil & _)].
  - rewrite elem_of_cons, IH. split.
    + intros [->|(y & ? & ?)]; [exists x; split; [left|done]|exists y; split; [by right|done]].
    + intros (y & [->|?]%elem_of_cons & Hy); [left; congruence|right; by exists y].
Qed.

(** The loop that adds the keys of the references of one object. *)
Lemma addKeys_Returns (acc : list string) (rs : list Schema) acc' :
  forEachM (λ acc x, k ← getSchemaKey x; Returns (Set_add acc k)) acc rs = Returns acc' ↔
  ∃ ks, Forall2 (λ x k, getSchemaKey x = Returns k) rs ks ∧ acc' = foldl Set_add acc ks.
Proof.
  revert acc. induction rs as [|x rs IH]; intros acc; simpl.
  - split; [intros [= <-]; exists []; by split; [constructor|]|].
    intros (ks & Hks & ->). by inversion Hks.
  - rewrite bind_Returns. split.
    + intros (s & (k & Hk & [= <-])%bind_Returns & (ks & Hks & ->)%IH).
      exists (k :: ks). by split; [constructor|].
    + intros (ks & Hks & ->). inversion Hks as [|? k ? ks' Hk Hks']; subst.
      exists (Set_add acc k). split; [apply bind_Returns; by exists k|].
      apply IH. by exists ks'.
Qed.

Lemma forEachM_Throws {S A} (f : S → A → Outcome S) s l e :
  forEachM f s l = Throws e → ∃ s0 x, x ∈ l ∧ f s0 x = Throws e.
Proof.
  revert s. induction l as [|x l IH]; intros s; simpl; [done|].
  intros [Hx|(s' & _ & (s0 & x' & ? & ?)%IH)]%bind_Throws.
  - exists s, x. split; [left|done].
  - exists s0, x'. split; [by right|done].
Qed.

Lemma forEachM_OutOfFuel {S A} (f : S → A → Outcome S) s l :
  forEachM f s l = OutOfFuel → ∃ s0 x, x ∈ l ∧ f s0 x = OutOfFuel.
Proof.
  revert s. induction l as [|x l IH]; intros s; simpl; [done|].
  intros [Hx|(s' & _ & (s0 & x' & ? & ?)%IH)]%bind_OutOfFuel.
  - exists s, x. split; [left|done].
  - exists s0, x'. split; [by right|done].
Qed.

(** *** The keys [getSchemas] gathers from the objects *)

Lemma edge_object k k' : edge spec k k' → ∃ p, schemas !! k = Some (SObject p).
Proof. intros (p & ? & _). by exists p. Qed.

Lemma tc_edge_inv k k' :
  tc (edge spec) k k' →
  ∃ p k1, schemas !! k = Some (SObject p) ∧ refersTo p k1 ∧ rtc (edge spec) k1 k'.
Proof.
  inversion 1 as [? ? (p & Hp & Hk1)|? k1 ? (p & Hp & Hk1) Hrest]; subst.
  - by exists p, k'.
  - exists p, k1. split_and!; [done..|]. by apply tc_rtc.
Qed.

Lemma returned_keys fuel z p rs k :
  schemas !! z = Some (SObject p) →
  getReferencesByObject spec fuel p = Returns rs →
  (∃ y, y ∈ rs ∧ getSchemaKey y = Returns k) ↔ tc (edge spec) z k.
Proof.
  intros Hz Hrs. split.
  - intros (y & Hy & Hk).
    destruct (getReferencesByObject_sound _ _ _ _ Hrs Hy) as (k0 & k' & Hk0 & Hrtc & Hk').
    assert (k' = k) as -> by congruence.
    eapply tc_rtc_r; [|done]. apply tc_once. by exists p.
  - intros (p' & k1 & Hp' & Hk1 & Hrtc)%tc_edge_inv.
    assert (p' = p) as -> by congruence.
    by eapply getReferencesByObject_complete.
Qed.

Lemma objectKeys_Returns fuel acc keys acc' :
  forEachM (λ keysFromObjects z,
      match getProperty schemas z with
      | Defined (SObject p) =>
          rs ← getReferencesByObject spec fuel p;
          forEachM (λ acc x, k ← getSchemaKey x; Returns (Set_add acc k))
                   keysFromObjects rs
      | _ => Returns keysFromObjects
      end) acc keys = Returns acc' →
  (∀ z p, z ∈ keys → schemas !! z = Some (SObject p) →
          ∃ rs, getReferencesByObject spec fuel p = Returns rs) ∧
  (∀ k, k ∈ acc' ↔ k ∈ acc ∨ ∃ z, z ∈ keys ∧ tc (edge spec) z k).
Proof.
  revert acc. induction keys as [|z keys IH]; intros acc; simpl.
  - intros [= <-]. split; [intros ? ? Hnil; by apply elem_of_nil in Hnil|].
    intros k. split; [by left|]. intros [?|(? & Hnil & _)]; [done|].
    by apply elem_of_nil in Hnil.
  - intros (s & Hbody & (Hobj & Hkeys)%IH)%bind_Returns.
    assert ((∀ p, schemas !! z = Some (SObject p) →
               ∃ rs, getReferencesByObject spec fuel p = Returns rs) ∧
            (∀ k, k ∈ s ↔ k ∈ acc ∨ tc (edge spec) z k)) as [Hz Hs].
    { revert Hbody. property_cases z p Hlook; intros Hbody;
        try (injection Hbody as <-; split; [done|]; intros k; split; [by left|];
             intros [?|(? & ? & ? & _)%tc_edge_inv]; [done|congruence]).
      apply bind_Returns in Hbody as (rs & Hrs & (ks & Hks & ->)%addKeys_Returns).
      split; [intros ? [= <-]; by exists rs|].
      intros k. rewrite elem_of_foldl_Set_add, (keyed_elem_of _ _ _ Hks).
      by rewrite (returned_keys _ _ _ _ _ Hlook Hrs). }
    split.
    + intros z' p [->|Hz']%elem_of_cons Hp; [by apply Hz|by eapply Hobj].
    + intros k. rewrite Hkeys, Hs. split.
      * intros [[?|?]|(z' & ? & ?)]; [by left|right; exists z; split; [left|done]|].
        right. exists z'. split; [by right|done].
      * intros [?|(z' & [->|?]%elem_of_cons & ?)]; [by left; left|by left; right|].
        right. by exists z'.
Qed.

Lemma inClosure_tc ks k :
  inClosure spec ks k ↔ k ∈ ks ∨ ∃ z, z ∈ ks ∧ tc (edge spec) z k.
Proof.
  split.
  - intros (k0 & Hk0 & [<-|?]%rtc_tc); [by left|right; by exists k0].
  - intros [?|(z & ? & ?%tc_rtc)]; [by exists k|by exists z].
Qed.

(** What [getSchemas] returns: the schemas named by the references and
    those reached from them, each with what the table gives for its name;
    but nothing under the name [__proto__]. *)
Lemma getSchemas_Returns fuel refs m :
  getSchemas spec fuel refs = Returns m →
  ∃ ks, Forall2 (λ x k, getSchemaKey x = Returns k) refs ks ∧
    (∀ k v, m !! k = Some v ↔
            inClosure spec ks k ∧ k ≠ "__proto__" ∧ v = getProperty schemas k) ∧
    (∀ z p, z ∈ ks → schemas !! z = Some (SObject p) →
            ∃ rs, getReferencesByObject spec fuel p = Returns rs).
Proof.
  unfold getSchemas.
  intros (ks & Hks%mapArrayM_Returns & Hrest)%bind_Returns.
  apply bind_Returns in Hrest as (kfo & (Hobj & Hkfo)%objectKeys_Returns & [= <-]).
  exists ks. split_and!; [done| |].
  - intros k v. rewrite lookup_store, JSObject_lookup_empty, inClosure_tc.
    assert (k ∈ new_Set (new_Set ks ++ kfo) ↔
            k ∈ ks ∨ ∃ z, z ∈ ks ∧ tc (edge spec) z k) as Hin.
    { rewrite elem_of_new_Set, elem_of_app, Hkfo, elem_of_new_Set.
      split.
      - intros [?|[Hnil|(z & Hz & ?)]];
          [by left|by apply elem_of_nil in Hnil|].
        rewrite elem_of_new_Set in Hz. right. by exists z.
      - intros [?|(z & ? & ?)]; [by left|].
        right. right. exists z. by rewrite elem_of_new_Set. }
    case_decide as Hk.
    + destruct Hk as [Hk Hp]. apply Hin in Hk.
      split; [by intros [= <-]|by intros (_ & _ & ->)].
    + split; [done|]. intros (Hk' & Hp & _). destruct Hk. split; [by apply Hin|done].
  - intros z p Hz. apply Hobj. by apply elem_of_new_Set.
Qed.

Lemma keyed_functional (xs : list Schema) (ks ks' : list string) :
  Forall2 (λ x k, getSchemaKey x = Returns k) xs ks →
  Forall2 (λ x k, getSchemaKey x = Returns k) xs ks' → ks = ks'.
Proof.
  intros H. revert ks'. induction H as [|x k xs ks Hx _ IH]; intros ks'; inversion 1; subst.
  - done.
  - f_equal; [congruence|by apply IH].
Qed.

Lemma addKeys_Throws (acc : list string) (rs : list Schema) e :
  forEachM (λ acc x, k ← getSchemaKey x; Returns (Set_add acc k)) acc rs = Throws e →
  ∃ x, x ∈ rs ∧ getSchemaKey x = Throws e.
Proof.
  intros (s0 & x & Hx & [?|(? & _ & ?)]%bind_Throws)%forEachM_Throws; [|done].
  by exists x.
Qed.

Lemma addKeys_not_OutOfFuel (acc : list string) (rs : list Schema) :
  forEachM (λ acc x, k ← getSchemaKey x; Returns (Set_add acc k)) acc rs ≠ OutOfFuel.
Proof.
  intros (s0 & x & Hx & [?|(? & _ & ?)]%bind_OutOfFuel)%forEachM_OutOfFuel; [|done].
  by eapply getSchemaKey_not_OutOfFuel.
Qed.

Lemma objectKeys_Throws fuel acc keys e :
  forEachM (λ keysFromObjects z,
      match getProperty schemas z with
      | Defined (SObject p) =>
          rs ← getReferencesByObject spec fuel p;
          forEachM (λ acc x, k ← getSchemaKey x; Returns (Set_add acc k))
                   keysFromObjects rs
      | _ => Returns keysFromObjects
      end) acc keys = Throws e →
  e = UndefinedRef ∧ ∃ z, z ∈ keys ∧ reachesInline spec z.
Proof.
  intros (s0 & z & Hz & Hbody)%forEachM_Throws.
  revert Hbody. property_cases z p Hlook; intros Hbody; try done.
  apply bind_Throws in Hbody as [Hthrow|(rs & Hrs & (y & Hy & Hk)%addKeys_Throws)].
  - apply getReferencesByObject_Throws in Hthrow as (-> & q & Hq & Hinline).
    split; [done|]. exists z. split; [done|].
    apply (reachesObject_names z) in Hq as (k & Hrtc & Hk); [|done].
    by exists k, q.
  - destruct (getReferencesByObject_sound _ _ _ _ Hrs Hy) as (_ & k' & _ & _ & Hk').
    congruence.
Qed.

Lemma objectKeys_OutOfFuel fuel acc keys :
  forEachM (λ keysFromObjects z,
      match getProperty schemas z with
      | Defined (SObject p) =>
          rs ← getReferencesByObject spec fuel p;
          forEachM (λ acc x, k ← getSchemaKey x; Returns (Set_add acc k))
                   keysFromObjects rs
      | _ => Returns keysFromObjects
      end) acc keys = OutOfFuel →
  ∃ z p, z ∈ keys ∧ schemas !! z = Some (SObject p) ∧
         getReferencesByObject spec fuel p = OutOfFuel.
Proof.
  intros (s0 & z & Hz & Hbody)%forEachM_OutOfFuel.
  revert Hbody. property_cases z p Hlook; intros Hbody; try done.
  apply bind_OutOfFuel in Hbody as [Hout|(rs & _ & Hadd)].
  - by exists z, p.
  - by apply addKeys_not_OutOfFuel in Hadd.
Qed.

(** [getSchemas] throws only for something that is not a reference,
    among the references given or in an object reached. *)
Lemma getSchemas_Throws fuel refs e :
  getSchemas spec fuel refs = Throws e →
  e = UndefinedRef ∧
  ((∃ x, x ∈ refs ∧ isReference (Some x) = false) ∨
   ∃ ks, Forall2 (λ x k, getSchemaKey x = Returns k) refs ks ∧
         ∃ z, z ∈ ks ∧ reachesInline spec z).
Proof.
  unfold getSchemas.
  intros [(x & Hx & [-> Href]%getSchemaKey_Throws)%mapArrayM_Throws
         |(ks & Hks%mapArrayM_Returns & [Hloop|(? & _ & ?)]%bind_Throws)]%bind_Throws;
    [|..|done].
  - split; [done|]. left. by exists x.
  - apply objectKeys_Throws in Hloop as (-> & z & Hz & Hinline).
    rewrite elem_of_new_Set in Hz. split; [done|]. right. exists ks. split; [done|]. by exists z.
Qed.

Lemma getSchemas_OutOfFuel fuel refs :
  getSchemas spec fuel refs = OutOfFuel →
  ∃ ks z p, Forall2 (λ x k, getSchemaKey x = Returns k) refs ks ∧ z ∈ ks ∧
            schemas !! z = Some (SObject p) ∧
            getReferencesByObject spec fuel p = OutOfFuel.
Proof.
  unfold getSchemas.
  intros [(x & _ & Hx)%mapArrayM_OutOfFuel
         |(ks & Hks%mapArrayM_Returns & [Hloop|(? & _ & ?)]%bind_OutOfFuel)]%bind_OutOfFuel;
    [|..|done].
  - by apply getSchemaKey_not_OutOfFuel in Hx.
  - apply objectKeys_OutOfFuel in Hloop as (z & p & Hz & Hp & Hout).
    rewrite elem_of_new_Set in Hz. by exists ks, z, p.
Qed.

(** A call of [getSchemas] that returns has met references only. *)
Lemma getSchemas_Returns_wellformed fuel refs m ks z :
  getSchemas spec fuel refs = Returns m →
  Forall2 (λ x k, getSchemaKey x = Returns k) refs ks →
  z ∈ ks → ¬ reachesInline spec z.
Proof.
  intros (ks' & Hks' & _ & Hobj)%getSchemas_Returns Hks Hz (k & q & Hrtc & Hq & Hinline).
  assert (ks' = ks) as -> by by eapply keyed_functional.
  apply rtc_inv in Hrtc as Hcase.
  assert (∃ p, schemas !! z = Some (SObject p)) as (p & Hp).
  { destruct Hcase as [->|(? & ?%edge_object & _)]; [by exists q|done]. }
  destruct (Hobj z p Hz Hp) as (rs & Hrs).
  eapply getReferencesByObject_Returns_wellformed; [done| |done].
  apply (reachesObject_names z); [done|]. by exists k.
Qed.

(** [getSchemas] returns when its references are references, no member
    met is inline and the budget suffices. *)
Lemma getSchemas_total fuel refs :
  Forall (λ x, isReference (Some x) = true) refs →
  (∀ x k, x ∈ refs → getSchemaKey x = Returns k → ¬ reachesInline spec k) →
  (∀ x k p, x ∈ refs → getSchemaKey x = Returns k → schemas !! k = Some (SObject p) →
            getReferencesByObject spec fuel p ≠ OutOfFuel) →
  ∃ m, getSchemas spec fuel refs = Returns m.
Proof.
  intros Hrefs Hwf Hfuel.
  destruct (getSchemas spec fuel refs) as [m|e|] eqn:Hcall; [by exists m|exfalso..].
  - apply getSchemas_Throws in Hcall as (_ & [(x & Hx & Hno)|(ks & Hks & z & Hz & Hinline)]).
    + rewrite Forall_forall in Hrefs. rewrite Hrefs in Hno by done. done.
    + apply (keyed_elem_of _ _ _ Hks) in Hz as (x & Hx & Hk). by eapply Hwf.
  - apply getSchemas_OutOfFuel in Hcall as (ks & z & p & Hks & Hz & Hp & Hout).
    apply (keyed_elem_of _ _ _ Hks) in Hz as (x & Hx & Hk). by eapply Hfuel.
Qed.

(** *** The references of an operation *)



Lemma getSchemaFromContent_Collection refs r :
  getSchemaFromContent refs (Some (SArray (SReference r))) = refs ++ [SReference r].
Proof. done. Qed.

Lemma getSchemaFromContent_references refs s :
  Forall (λ x, isReference (Some x) = true) refs →
  Forall (λ x, isReference (Some x) = true) (getSchemaFromContent refs s).
Proof.
  unfold getSchemaFromContent. intros Hrefs.
  destruct (isCollection s && isReference (items_of s)) eqn:Hcoll.
  - apply andb_true_iff in Hcoll as [_ Hitems].
    destruct (items_of s); [|done]. apply Forall_app. by split; [|constructor].
  - destruct (isReference s) eqn:Href; [|done]. destruct s; [|done].
    apply Forall_app. by split; [|constructor].
Qed.

Lemma parameter_references (ps : list IOpenAPI3Parameter) refs :
  Forall (λ x, isReference (Some x) = true) refs →
  Forall (λ x, isReference (Some x) = true)
    (foldl (λ refs z, if isReference (param_schema z)
                      then match param_schema z with Some r => refs ++ [r] | None => refs end
                      else refs) refs ps).
Proof.
  revert refs. induction ps as [|z ps IH]; intros refs Hrefs; simpl; [done|].
  apply IH. destruct (isReference (param_schema z)) eqn:Href; [|done].
  destruct (param_schema z); [|done]. apply Forall_app. by split; [|constructor].
Qed.

Lemma getReferencesByOperation_Returns operation refs :
  getReferencesByOperation operation = Returns refs →
  Forall (λ x, isReference (Some x) = true) refs ∧
  is_Some (responses operation !! "200").
Proof.
  unfold getReferencesByOperation.
  destruct (responses operation !! "200") as [r|]; [|done]. intros [= <-].
  split; [|done].
  by apply getSchemaFromContent_references, getSchemaFromContent_references,
    parameter_references.
Qed.

Lemma getReferencesByOperation_Throws operation e :
  getReferencesByOperation operation = Throws e ↔
  e = UndefinedResponse ∧ responses operation !! "200" = None.
Proof.
  unfold getReferencesByOperation.
  destruct (responses operation !! "200") as [r|]; split; try done.
  - by intros [_ ?].
  - by intros [= <-].
  - by intros [-> _].
Qed.

Lemma getReferencesByOperation_not_OutOfFuel operation :
  getReferencesByOperation operation ≠ OutOfFuel.
Proof.
  unfold getReferencesByOperation. by destruct (responses operation !! "200").
Qed.


Lemma references_keyed refs :
  Forall (λ x, isReference (Some x) = true) refs →
  ∃ ks, Forall2 (λ x k, getSchemaKey x = Returns k) refs ks.
Proof.
  induction 1 as [|x refs Hx _ (ks & IH)]; [by exists []|].
  destruct x; try done. eexists (_ :: ks). by constructor.
Qed.

(** *** All the endpoints *)

Lemma endpointLoop_Returns fuel (endpoints : list string) store m :
  forEachM (λ store operation,
      match operation with
      | None => Returns store
      | Some o =>
          refs ← getReferencesByOperation o;
          schemas ← getSchemas spec fuel refs;
          Returns (own schemas ∪ store)
      end) store (getOperationByEndpoint spec <$> endpoints) = Returns m →
  (∀ k v, store !! k = Some v → v = getProperty schemas k) →
  ∀ k v, m !! k = Some v ↔
         v = getProperty schemas k ∧
         (is_Some (store !! k) ∨ (endpointClosure spec endpoints k ∧ k ≠ "__proto__")).
Proof.
  revert store. induction endpoints as [|ep eps IH]; intros store; simpl.
  - intros [= <-] Hstore k v. split.
    + intros Hk. split; [by eapply Hstore|by left].
    + intros [-> [[w Hw]|[(? & ? & ? & Hnil & _) _]]]; [|by apply elem_of_nil in Hnil].
      rewrite Hw. f_equal. by eapply Hstore.
  - intros (store' & Hbody & Hrest)%bind_Returns Hstore.
    destruct (getOperationByEndpoint spec ep) as [op|] eqn:Hop.
    + apply bind_Returns in Hbody as (refs & Hrefs & (sch & Hsch & [= <-])%bind_Returns).
      apply getSchemas_Returns in Hsch as (ks & Hks & Hsch & _).
      assert (∀ k v, (own sch ∪ store) !! k = Some v → v = getProperty schemas k) as Hstore'.
      { intros k v [Hk|[_ Hk]]%lookup_union_Some_raw; [by apply Hsch in Hk as (_ & _ & ->)|].
        by eapply Hstore. }
      intros k v. rewrite (IH _ Hrest Hstore'). apply and_iff_compat_l. split.
      * intros [[v' [Hk|[_ Hk]]%lookup_union_Some_raw]
               |[(ep' & op' & ks' & ? & ? & ? & ?) Hp]].
        -- right. apply Hsch in Hk as (Hk & Hp & _). split; [|done].
           exists ep, op, ks. split_and!; [left|done|by exists refs|done].
        -- left. by exists v'.
        -- right. split; [|done]. exists ep', op', ks'. split_and!; [by right|done..].
      * intros [[v' Hv']
               |[(ep' & op' & ks' & [->|Hin]%elem_of_cons & Hop' & Hkeys & Hclos) Hp]].
        -- left. destruct (own sch !! k) as [w|] eqn:Hw.
           ++ exists w. apply lookup_union_Some_raw. by left.
           ++ exists v'. apply lookup_union_Some_raw. by right.
        -- left. assert (op' = op) as -> by congruence.
           destruct Hkeys as (refs' & Hrefs' & Hks').
           assert (refs' = refs) as -> by congruence.
           assert (ks' = ks) as -> by by eapply keyed_functional.
           exists (getProperty schemas k). apply lookup_union_Some_raw. left. by apply Hsch.
        -- right. split; [|done]. by exists ep', op', ks'.
    + injection Hbody as <-. intros k v. rewrite (IH _ Hrest Hstore).
      apply and_iff_compat_l. apply or_iff_compat_l. split.
      * intros [(ep' & op' & ks' & ? & ? & ? & ?) Hp]. split; [|done].
        exists ep', op', ks'. split_and!; [by right|done..].
      * intros [(ep' & op' & ks' & [->|Hin]%elem_of_cons & Hop' & ? & ?) Hp]; [congruence|].
        split; [|done]. by exists ep', op', ks'.
Qed.

(** What [getSchemasByEndpoints] returns: the schemas named by the
    operations of the endpoints and those reached from them, each with
    what the table gives for its name; but nothing under the name
    [__proto__]. *)
Lemma getSchemasByEndpoints_Returns fuel endpoints m :
  getSchemasByEndpoints spec fuel endpoints = Returns m →
  ∀ k v, m !! k = Some v ↔
         endpointClosure spec endpoints k ∧ k ≠ "__proto__" ∧ v = getProperty schemas k.
Proof.
  unfold getSchemasByEndpoints. case_decide as Hlen.
  - intros [= <-] k v. rewrite lookup_empty. split; [done|].
    apply length_zero_iff_nil in Hlen as ->.
    intros [(? & ? & ? & Hnil & _) _]. by apply elem_of_nil in Hnil.
  - intros Hloop k v. rewrite (endpointLoop_Returns _ _ _ _ Hloop).
    + rewrite lookup_empty. split.
      * intros [-> [[? ?]|[? ?]]]; done.
      * intros (? & ? & ->). split; [done|by right].
    + intros ? ?. by rewrite lookup_empty.
Qed.

Lemma forEachM_app {S A} (f : S → A → Outcome S) s l1 l2 :
  forEachM f s (l1 ++ l2) = s' ← forEachM f s l1; forEachM f s' l2.
Proof.
  revert s. induction l1 as [|x l1 IH]; intros s; simpl; [done|].
  destruct (f s x); simpl; [apply IH|done..].
Qed.

Lemma forEachM_Returns_each {S A} (f : S → A → Outcome S) s l s' x :
  forEachM f s l = Returns s' → x ∈ l → ∃ s0 s1, f s0 x = Returns s1.
Proof.
  revert s. induction l as [|y l IH]; intros s; simpl; [by intros _ ?%elem_of_nil|].
  intros (s1 & Hy & Hrest)%bind_Returns [->|Hx]%elem_of_cons.
  - by exists s, s1.
  - by eapply IH.
Qed.

(** The short cut on an empty set agrees with the loop. *)
Lemma getSchemasByEndpoints_loop fuel endpoints :
  getSchemasByEndpoints spec fuel endpoints =
  forEachM (λ store operation,
      match operation with
      | None => Returns store
      | Some o =>
          refs ← getReferencesByOperation o;
          schemas ← getSchemas spec fuel refs;
          Returns (own schemas ∪ store)
      end) ∅ (getOperationByEndpoint spec <$> endpoints).
Proof.
  unfold getSchemasByEndpoints. case_decide as Hlen; [|done].
  by apply length_zero_iff_nil in Hlen as ->.
Qed.

Lemma getOperationsByEndpoints_loop endpoints :
  getOperationsByEndpoints spec endpoints =
  foldl (λ store endpoint,
      match getOperationByEndpoint spec endpoint with
      | None => store
      | Some o => assign (λ _, true) store endpoint o
      end) ∅ endpoints.
Proof.
  unfold getOperationsByEndpoints. case_decide as Hlen; [|done].
  by apply length_zero_iff_nil in Hlen as ->.
Qed.

(** A call that returns has resolved every operation it met. *)
Lemma getSchemasByEndpoints_Returns_each fuel endpoints m endpoint operation :
  getSchemasByEndpoints spec fuel endpoints = Returns m →
  endpoint ∈ endpoints →
  getOperationByEndpoint spec endpoint = Some operation →
  ∃ refs schemas,
    getReferencesByOperation operation = Returns refs ∧
    getSchemas spec fuel refs = Returns schemas.
Proof.
  rewrite getSchemasByEndpoints_loop. intros Hloop Hin Hop.
  destruct (forEachM_Returns_each _ _ _ _ (Some operation) Hloop) as (s0 & s1 & Hbody).
  { rewrite <- Hop. apply list_elem_of_fmap. by exists endpoint. }
  apply bind_Returns in Hbody as (refs & Hrefs & (sch & Hsch & _)%bind_Returns).
  by exists refs, sch.
Qed.


Lemma getSchemasByEndpoints_Throws fuel endpoints e :
  getSchemasByEndpoints spec fuel endpoints = Throws e →
  ∃ endpoint operation,
    endpoint ∈ endpoints ∧
    getOperationByEndpoint spec endpoint = Some operation ∧
    ((e = UndefinedResponse ∧ responses operation !! "200" = None) ∨
     (e = UndefinedRef ∧
      ∃ ks z, operationKeys operation ks ∧ z ∈ ks ∧ reachesInline spec z)).
Proof.
  rewrite getSchemasByEndpoints_loop.
  intros (s0 & o & (ep & -> & Hep)%list_elem_of_fmap & Hbody)%forEachM_Throws.
  destruct (getOperationByEndpoint spec ep) as [op|] eqn:Hop; [|done].
  exists ep, op. split_and!; [done..|].
  apply bind_Throws in Hbody
    as [Hthrow%getReferencesByOperation_Throws|(refs & Hrefs & Hbody)]; [by left|].
  apply bind_Throws in Hbody as [Hthrow|(? & _ & ?)]; [|done].
  apply getSchemas_Throws in Hthrow as (-> & [(x & Hx & Hno)|(ks & Hks & z & Hz & Hinline)]).
  - apply getReferencesByOperation_Returns in Hrefs as [Hrefs _].
    rewrite Forall_forall in Hrefs. rewrite Hrefs in Hno by done. done.
  - right. split; [done|]. exists ks, z. split_and!; [by exists refs|done..].
Qed.

Lemma getSchemasByEndpoints_OutOfFuel fuel endpoints :
  getSchemasByEndpoints spec fuel endpoints = OutOfFuel →
  ∃ endpoint operation ks z p,
    endpoint ∈ endpoints ∧
    getOperationByEndpoint spec endpoint = Some operation ∧
    operationKeys operation ks ∧ z ∈ ks ∧
    schemas !! z = Some (SObject p) ∧
    getReferencesByObject spec fuel p = OutOfFuel.
Proof.
  rewrite getSchemasByEndpoints_loop.
  intros (s0 & o & (ep & -> & Hep)%list_elem_of_fmap & Hbody)%forEachM_OutOfFuel.
  destruct (getOperationByEndpoint spec ep) as [op|] eqn:Hop; [|done].
  apply bind_OutOfFuel in Hbody
    as [Hout%getReferencesByOperation_not_OutOfFuel|(refs & Hrefs & Hbody)]; [done|].
  apply bind_OutOfFuel in Hbody as [Hout|(? & _ & ?)]; [|done].
  apply getSchemas_OutOfFuel in Hout as (ks & z & p & Hks & Hz & Hp & Hout).
  exists ep, op, ks, z, p. split_and!; try done. by exists refs.
Qed.

End Resolution.

(** ** Endpoints without an operation *)

Lemma getOperationsByEndpoints_lookup (spec : IOpenAPI3) (endpoints : list string) k :
  getOperationsByEndpoints spec endpoints !! k =
  if decide (k ∈ endpoints ∧ k ≠ "__proto__") then getOperationByEndpoint spec k else None.
Proof.
  rewrite getOperationsByEndpoints_loop.
  enough (∀ store : JSObject IOpenAPI3Operation,
    foldl (λ store endpoint,
        match getOperationByEndpoint spec endpoint with
        | None => store
        | Some o => assign (λ _, true) store endpoint o
        end) store endpoints !! k
    = if decide (k ∈ endpoints ∧ k ≠ "__proto__")
      then match getOperationByEndpoint spec k with Some o => Some o | None => store !! k end
      else store !! k) as H.
  { rewrite H, JSObject_lookup_empty. case_decide; [|done].
    by destruct (getOperationByEndpoint spec k). }
  induction endpoints as [|ep eps IH]; intros store; simpl; [done|].
  rewrite IH. destruct (decide (k ∈ eps ∧ k ≠ "__proto__")) as [[Hin Hp]|Hn].
  - rewrite decide_True by (split; [by right|done]).
    destruct (getOperationByEndpoint spec k) as [o|] eqn:Hk; [done|].
    destruct (getOperationByEndpoint spec ep) as [o'|] eqn:Hep; [|done].
    rewrite lookup_assign, decide_False; [done|]. intros [-> _]. congruence.
  - destruct (decide (k = ep ∧ k ≠ "__proto__")) as [[-> Hp]|Hn'].
    + rewrite decide_True by (split; [left|done]).
      destruct (getOperationByEndpoint spec ep) as [o|]; [|done].
      by rewrite lookup_assign, decide_True.
    + rewrite decide_False by (intros [[->|?]%elem_of_cons ?]; naive_solver).
      destruct (getOperationByEndpoint spec ep) as [o|]; [|done].
      by rewrite lookup_assign, decide_False.
Qed.

(** The endpoint [__proto__], when it resolves, becomes the prototype. *)
Lemma getOperationsByEndpoints_prototype (spec : IOpenAPI3) (endpoints : list string) :
  prototype (getOperationsByEndpoints spec endpoints) =
  if decide ("__proto__" ∈ endpoints) then getOperationByEndpoint spec "__proto__" else None.
Proof.
  rewrite getOperationsByEndpoints_loop.
  enough (∀ store : JSObject IOpenAPI3Operation,
    prototype (foldl (λ store endpoint,
        match getOperationByEndpoint spec endpoint with
        | None => store
        | Some o => assign (λ _, true) store endpoint o
        end) store endpoints)
    = if decide ("__proto__" ∈ endpoints)
      then match getOperationByEndpoint spec "__proto__" with
           | Some o => Some o
           | None => prototype store
           end
      else prototype store) as H.
  { rewrite H. case_decide; [|done]. by destruct (getOperationByEndpoint spec "__proto__"). }
  induction endpoints as [|ep eps IH]; intros store; simpl; [done|].
  rewrite IH. destruct (decide ("__proto__" ∈ eps)) as [Hin|Hin].
  - rewrite decide_True by by right.
    destruct (getOperationByEndpoint spec "__proto__") as [o|] eqn:Hk; [done|].
    destruct (getOperationByEndpoint spec ep) as [o'|] eqn:Hep; [|done].
    unfold assign. case_decide as Hproto; [congruence|done].
  - destruct (decide (ep = "__proto__")) as [->|Hne].
    + rewrite decide_True by left.
      destruct (getOperationByEndpoint spec "__proto__") as [o|]; [|done].
      unfold assign. by rewrite decide_True.
    + rewrite decide_False by set_solver.
      destruct (getOperationByEndpoint spec ep) as [o|]; [|done].
      unfold assign. by rewrite decide_False.
Qed.

Lemma JSObject_eq {V} (a b : JSObject V) :
  (∀ k, a !! k = b !! k) → prototype a = prototype b → a = b.
Proof.
  destruct a as [oa pa], b as [ob pb]. intros Hown Hproto. simpl in *. subst. f_equal.
  apply map_eq. intros k. apply (Hown k).
Qed.

(** C7: an endpoint that resolves to no operation is left out of both
    results: the schemas and the operations are those of the other
    endpoints alone (so it raises nothing and changes nothing), and the
    operations have no entry for it. *)
Theorem unresolvable_endpoint_is_skipped (spec : IOpenAPI3) (fuel : nat)
    (before after : list string) (endpoint : string) :
  getOperationByEndpoint spec endpoint = None →
  getSchemasByEndpoints spec fuel (before ++ endpoint :: after)
    = getSchemasByEndpoints spec fuel (before ++ after) ∧
  getOperationsByEndpoints spec (before ++ endpoint :: after)
    = getOperationsByEndpoints spec (before ++ after) ∧
  getOperationsByEndpoints spec (before ++ endpoint :: after) !! endpoint = None.
Proof.
  intros Hnone. split_and!.
  - rewrite !getSchemasByEndpoints_loop, !fmap_app, !forEachM_app. simpl.
    rewrite Hnone. by destruct (forEachM _ _ (_ <$> before)).
  - rewrite !getOperationsByEndpoints_loop, !foldl_app. simpl. by rewrite Hnone.
  - rewrite getOperationsByEndpoints_lookup, Hnone. by case_decide.
Qed.

Lemma unresolvable_endpoint_is_skipped_witness :
  getSchemasByEndpoints Examples.mixedDocument 3 ["/api/users"; "/api/none"; "/missing"]
    = getSchemasByEndpoints Examples.mixedDocument 3 ["/api/users"; "/missing"] ∧
  getOperationsByEndpoints Examples.mixedDocument ["/api/users"; "/api/none"; "/missing"]
    = getOperationsByEndpoints Examples.mixedDocument ["/api/users"; "/missing"] ∧
  getOperationsByEndpoints Examples.mixedDocument ["/api/users"; "/api/none"; "/missing"]
    !! "/api/none" = None.
Proof.
  apply (unresolvable_endpoint_is_skipped Examples.mixedDocument 3
           ["/api/users"] ["/missing"] "/api/none").
  vm_compute. reflexivity.
Defined.

(** ** Operations without a 200 response *)

(** C8: when an endpoint resolves to an operation without a response for
    status 200, [getSchemasByEndpoints] returns nothing, neither the rest
    nor a part: it throws on reading the missing response as soon as the
    endpoints before have been resolved; and when every operation met has
    that response, this is never what is thrown. *)
Theorem missing_200_response_fails (spec : IOpenAPI3) (fuel : nat) (endpoints : list string) :
  (∀ endpoint operation,
     endpoint ∈ endpoints →
     getOperationByEndpoint spec endpoint = Some operation →
     responses operation !! "200" = None →
     ∀ m, getSchemasByEndpoints spec fuel endpoints ≠ Returns m) ∧
  (∀ before endpoint after operation store,
     endpoints = before ++ endpoint :: after →
     getSchemasByEndpoints spec fuel before = Returns store →
     getOperationByEndpoint spec endpoint = Some operation →
     responses operation !! "200" = None →
     getSchemasByEndpoints spec fuel endpoints = Throws UndefinedResponse) ∧
  ((∀ endpoint operation,
      endpoint ∈ endpoints →
      getOperationByEndpoint spec endpoint = Some operation →
      is_Some (responses operation !! "200")) →
   getSchemasByEndpoints spec fuel endpoints ≠ Throws UndefinedResponse).
Proof.
  split_and!.
  - intros endpoint operation Hin Hop Hno m Hcall.
    destruct (getSchemasByEndpoints_Returns_each _ _ _ _ _ _ Hcall Hin Hop)
      as (refs & _ & [_ [r Hr]]%getReferencesByOperation_Returns & _).
    congruence.
  - intros before endpoint after operation store -> Hbefore Hop Hno.
    rewrite getSchemasByEndpoints_loop in Hbefore |- *.
    rewrite fmap_app, forEachM_app, Hbefore. simpl. rewrite Hop. simpl.
    assert (getReferencesByOperation operation = Throws UndefinedResponse) as ->; [|done].
    by apply getReferencesByOperation_Throws.
  - intros Hresp (ep & op & Hin & Hop & [[_ Hno]|[? _]])%getSchemasByEndpoints_Throws; [|done].
    destruct (Hresp ep op Hin Hop) as [r Hr]. congruence.
Qed.

Lemma missing_200_response_fails_witness :
  (∀ m, getSchemasByEndpoints Examples.mixedDocument 3 ["/api/users"; "/api/created"]
        ≠ Returns m) ∧
  getSchemasByEndpoints Examples.mixedDocument 3 ["/api/users"; "/api/created"]
    = Throws UndefinedResponse ∧
  getSchemasByEndpoints Examples.mixedDocument 3 ["/api/users"] ≠ Throws UndefinedResponse.
Proof.
  split_and!.
  - apply (proj1 (missing_200_response_fails Examples.mixedDocument 3
                    ["/api/users"; "/api/created"]) "/api/created"
             (Examples.operationWithBody (Examples.pointer "User") Examples.createdResponses));
      [right; left|vm_compute; reflexivity|vm_compute; reflexivity].
  - assert (∃ store, getSchemasByEndpoints Examples.mixedDocument 3 ["/api/users"]
                      = Returns store) as [store Hbefore]
      by (vm_compute; eexists; reflexivity).
    apply (proj1 (proj2 (missing_200_response_fails Examples.mixedDocument 3
                    ["/api/users"; "/api/created"])) ["/api/users"] "/api/created" []
             (Examples.operationWithBody (Examples.pointer "User") Examples.createdResponses)
             store);
      [reflexivity|exact Hbefore|vm_compute; reflexivity|vm_compute; reflexivity].
  - apply (proj2 (proj2 (missing_200_response_fails Examples.mixedDocument 3 ["/api/users"]))).
    intros endpoint operation ->%list_elem_of_singleton. vm_compute.
    intros [= <-]. eexists. reflexivity.
Defined.

(** ** Documents without a cycle *)

Lemma acyclic_by_rank (spec : IOpenAPI3) (rank : string → nat) :
  (∀ k k', edge spec k k' → rank k' < rank k) → Acyclic spec.
Proof.
  intros Hrank k Hk.
  assert (∀ a b, tc (edge spec) a b → rank b < rank a) as Htc.
  { induction 1 as [a b Hab|a b c Hab _ IH]; [by apply Hrank|].
    specialize (Hrank a b Hab). lia. }
  specialize (Htc k k Hk). lia.
Qed.



(** ** The closure of the references *)



Lemma endpointClosure_direct (spec : IOpenAPI3) endpoints endpoint operation refs x k :
  endpoint ∈ endpoints →
  getOperationByEndpoint spec endpoint = Some operation →
  getReferencesByOperation operation = Returns refs →
  x ∈ refs → getSchemaKey x = Returns k →
  endpointClosure spec endpoints k.
Proof.
  intros Hep Hop Hrefs Hx Hk.
  destruct (getReferencesByOperation_Returns _ _ Hrefs) as [(ks & Hks)%references_keyed _].
  exists endpoint, operation, ks. split_and!; [done..|by exists refs|].
  exists k. split; [|done]. apply (keyed_elem_of _ _ _ Hks). by exists x.
Qed.







(** ** References to schemas that the table does not have *)

Lemma flatMapM_singletons {A} (f : A → Outcome (list A)) l :
  (∀ x, x ∈ l → f x = Returns [x]) → flatMapM f l = Returns l.
Proof.
  induction l as [|x l IH]; intros Hf; simpl; [done|].
  rewrite Hf by left. simpl. rewrite IH; [done|]. intros. apply Hf. by right.
Qed.

Lemma absent_not_reachesInline (spec : IOpenAPI3) k :
  components_schemas spec !! k = None → ¬ reachesInline spec k.
Proof.
  intros Hk (k' & q & [<-|(? & (? & ? & _) & _)]%rtc_inv & Hq & _); congruence.
Qed.

Lemma proto_inherited : "__proto__" ∈ Object_prototype_names.
Proof. unfold Object_prototype_names. set_solver. Qed.

(** C10, as the code has it: a reference to a schema that the table does
    not have raises nothing.  The result has its name with the value
    [undefined] when the name is not one that every object inherits; it
    has it with the inherited value when it is one, [__proto__] apart,
    under which the result has nothing.  [getSchemas] on references to
    absent schemas needs no budget for recursion at all; the references
    of an object all of which name absent schemas are resolved by one
    call, with no recursion; and whatever [getSchemasByEndpoints] throws
    comes from an operation without a 200 response or from an inline
    member of an object schema that the table has. *)
Theorem absent_schema_is_undefined_entry (spec : IOpenAPI3) :
  (∀ fuel endpoints m k,
     getSchemasByEndpoints spec fuel endpoints = Returns m →
     endpointClosure spec endpoints k →
     components_schemas spec !! k = None →
     (k ∉ Object_prototype_names → m !! k = Some Undefined) ∧
     (k ∈ Object_prototype_names → k ≠ "__proto__" → m !! k = Some (Inherited k)) ∧
     (k = "__proto__" → m !! k = None)) ∧
  (∀ refs,
     Forall (λ x, isReference (Some x) = true) refs →
     (∀ x k, x ∈ refs → getSchemaKey x = Returns k →
             components_schemas spec !! k = None) →
     ∃ m, getSchemas spec 0 refs = Returns m ∧
          ∀ x k, x ∈ refs → getSchemaKey x = Returns k →
                 k ∉ Object_prototype_names → m !! k = Some Undefined) ∧
  (∀ properties,
     ¬ hasInlineMember properties →
     (∀ k, refersTo properties k → components_schemas spec !! k = None) →
     getReferencesByObject spec 1 properties = Returns (allPropertyRefs properties)) ∧
  (∀ fuel endpoints e,
     getSchemasByEndpoints spec fuel endpoints = Throws e →
     ∃ endpoint operation,
       endpoint ∈ endpoints ∧
       getOperationByEndpoint spec endpoint = Some operation ∧
       ((e = UndefinedResponse ∧ responses operation !! "200" = None) ∨
        (e = UndefinedRef ∧
         ∃ ks z, operationKeys operation ks ∧ z ∈ ks ∧ reachesInline spec z))).
Proof.
  split_and!; [| | |apply getSchemasByEndpoints_Throws].
  - intros fuel endpoints m k Hcall Hclosure Habsent.
    pose proof (getSchemasByEndpoints_Returns _ _ _ _ Hcall) as Hm.
    pose proof (getProperty_absent _ _ Habsent) as Hread. split_and!.
    + intros Hk. apply Hm. rewrite Hread, decide_False by done.
      split_and!; [done| |done]. intros ->. apply Hk, proto_inherited.
    + intros Hk Hproto. apply Hm. rewrite Hread, decide_True by done. done.
    + intros ->. destruct (m !! "__proto__") as [v|] eqn:Hv; [|done].
      by apply Hm in Hv as (_ & ? & _).
  - intros refs Hrefs Habsent.
    destruct (getSchemas_total spec 0 refs Hrefs) as [m Hm].
    + intros x k Hx Hk. by eapply absent_not_reachesInline, Habsent.
    + intros x k p Hx Hk Hp. rewrite (Habsent x k Hx Hk) in Hp. done.
    + exists m. split; [done|]. intros x k Hx Hk Hname.
      destruct (getSchemas_Returns _ _ _ _ Hm) as (ks & Hks & Hlookup & _).
      apply Hlookup. split_and!.
      * exists k. split; [|done]. apply (keyed_elem_of _ _ _ Hks). by exists x.
      * intros ->. apply Hname, proto_inherited.
      * rewrite getProperty_absent by by eapply Habsent. by rewrite decide_False.
  - intros properties Hinline Habsent.
    rewrite getReferencesByObject_S. apply flatMapM_singletons. intros x Hx.
    destruct (getSchemaKey_outcome x) as [(k & Hk & _)|[_ Hno]];
      [|destruct Hinline; by exists x].
    unfold expand. rewrite Hk. simpl.
    rewrite getProperty_absent by (apply Habsent; by exists x). by case_decide.
Qed.

Lemma absent_schema_is_undefined_entry_witness :
  (∃ m, getSchemasByEndpoints Examples.danglingDocument 0 ["/ghosts"] = Returns m ∧
        m !! "Ghost" = Some Undefined) ∧
  getReferencesByObject Examples.danglingDocument 1
    (Some [("ghost", Examples.pointer "Ghost")]) = Returns [Examples.pointer "Ghost"].
Proof.
  split.
  - assert (∃ m, getSchemasByEndpoints Examples.danglingDocument 0 ["/ghosts"] = Returns m)
      as [m Hcall] by (vm_compute; eexists; reflexivity).
    exists m. split; [exact Hcall|].
    apply (proj1 (absent_schema_is_undefined_entry Examples.danglingDocument)
             0 ["/ghosts"] m "Ghost" Hcall); [|reflexivity|].
    + apply (endpointClosure_direct Examples.danglingDocument ["/ghosts"] "/ghosts"
               (Examples.operationWithBody (Examples.pointer "Ghost") Examples.okResponses)
               [Examples.pointer "Ghost"] (Examples.pointer "Ghost"));
        [left|vm_compute; reflexivity|vm_compute; reflexivity|left|vm_compute; reflexivity].
    + unfold Object_prototype_names. rewrite !elem_of_cons, elem_of_nil.
      intros Hname. repeat destruct Hname as [Hname|Hname]; done.
  - apply (proj1 (proj2 (proj2 (absent_schema_is_undefined_entry Examples.danglingDocument)))
             (Some [("ghost", Examples.pointer "Ghost")])).
    + intros (x & Hx & Hno). vm_compute in Hx.
      apply list_elem_of_singleton in Hx as ->. discriminate.
    + intros k _. reflexivity.
Defined.

(** The claim of an undefined entry fails for the names that every object
    inherits: the parameters refer to [constructor] and to [__proto__],
    the table has neither, and the result has the inherited member under
    the first name and no key for the second. *)
Lemma absent_schema_counterexample :
  ∃ m, getSchemasByEndpoints Examples.inheritedDocument 0 ["/ghosts"] = Returns m ∧
       endpointClosure Examples.inheritedDocument ["/ghosts"] "constructor" ∧
       endpointClosure Examples.inheritedDocument ["/ghosts"] "__proto__" ∧
       components_schemas Examples.inheritedDocument !! "constructor" = None ∧
       components_schemas Examples.inheritedDocument !! "__proto__" = None ∧
       m !! "constructor" = Some (Inherited "constructor") ∧
       m !! "constructor" ≠ Some Undefined ∧
       m !! "__proto__" = None.
Proof.
  assert (∃ m, getSchemasByEndpoints Examples.inheritedDocument 0 ["/ghosts"] = Returns m)
    as [m Hcall] by (vm_compute; eexists; reflexivity).
  exists m. split; [exact Hcall|].
  assert (match getSchemasByEndpoints Examples.inheritedDocument 0 ["/ghosts"] with
          | Returns m => m !! "constructor" = Some (Inherited "constructor") ∧
                         m !! "__proto__" = None
          | _ => False
          end) as Hm by (vm_compute; split; reflexivity).
  rewrite Hcall in Hm. destruct Hm as [Hconstructor Hproto].
  assert (∀ name, name ∈ ["constructor"; "__proto__"] →
            endpointClosure Examples.inheritedDocument ["/ghosts"] name) as Hclosure.
  { intros name Hname. eexists "/ghosts", _, ["constructor"; "__proto__"].
    split_and!; [left|vm_compute; reflexivity| |by exists name].
    eexists. split; [vm_compute; reflexivity|]. by repeat constructor. }
  split_and!; [apply Hclosure; left|apply Hclosure; right; left|reflexivity|reflexivity
              |done|by rewrite Hconstructor|done].
Qed.

(** ** Reference cycles *)

(** C2, as the code has it: when the operation of an endpoint refers to a
    schema from which two object schemas that refer to each other are
    reached, [getSchemasByEndpoints] returns for no budget, the recursion
    of [getReferencesByObject] having no end; and when moreover nothing
    else can fail (every operation met has a 200 response, no [allOf]
    member is inline), the budget is exhausted whatever it is. *)
Theorem reference_cycle_never_resolves (spec : IOpenAPI3) (endpoints : list string)
    (endpoint : string) (operation : IOpenAPI3Operation) (refs : list Schema)
    (root : Schema) (k0 A B : string) (pA pB : option (list (string * Schema))) :
  endpoint ∈ endpoints →
  getOperationByEndpoint spec endpoint = Some operation →
  getReferencesByOperation operation = Returns refs →
  root ∈ refs → getSchemaKey root = Returns k0 → rtc (edge spec) k0 A →
  components_schemas spec !! A = Some (SObject pA) → refersTo pA B →
  components_schemas spec !! B = Some (SObject pB) → refersTo pB A →
  (∀ fuel m, getSchemasByEndpoints spec fuel endpoints ≠ Returns m) ∧
  (allOfReferences spec →
   (∀ endpoint operation,
      endpoint ∈ endpoints → getOperationByEndpoint spec endpoint = Some operation →
      is_Some (responses operation !! "200")) →
   ∀ fuel, getSchemasByEndpoints spec fuel endpoints = OutOfFuel).
Proof.
  intros Hep Hop Hrefs Hroot Hk0 Hreach HA HAB HB HBA.
  assert (∀ fuel m, getSchemasByEndpoints spec fuel endpoints ≠ Returns m) as Hnever.
  { intros fuel m Hcall.
    destruct (getSchemasByEndpoints_Returns_each _ _ _ _ _ _ Hcall Hep Hop)
      as (refs' & sch & Hrefs' & Hsch).
    assert (refs' = refs) as -> by congruence.
    destruct (getSchemas_Returns _ _ _ _ Hsch) as (ks & Hks & _ & Hobj).
    assert (tc (edge spec) A A) as Hcycle.
    { apply tc_l with B; [by exists pA|]. apply tc_once. by exists pB. }
    assert (∃ p0, components_schemas spec !! k0 = Some (SObject p0)) as (p0 & Hp0).
    { apply rtc_inv in Hreach as [->|(? & ?%edge_object & _)]; [by exists pA|done]. }
    destruct (Hobj k0 p0) as (rs & Hrs); [|done|].
    { apply (keyed_elem_of _ _ _ Hks). by exists root. }
    eapply getReferencesByObject_cycle; [exact Hp0| |exact Hrs]. by exists A. }
  split; [done|]. intros Hallof Hresp fuel.
  destruct (getSchemasByEndpoints spec fuel endpoints) as [m|e|] eqn:Hcall; [| |done].
  - by destruct (Hnever fuel m).
  - apply getSchemasByEndpoints_Throws in Hcall
      as (ep & op & Hin & Hop' & [[_ Hno]|(_ & ks & z & _ & _ & k & q & _ & Hq & Hinline)]).
    + destruct (Hresp ep op Hin Hop') as [? ?]. congruence.
    + by destruct (Hallof k q).
Qed.

Lemma cyclicDocument_allOfReferences : allOfReferences Examples.cyclicDocument.
Proof.
  intros k p Hk (x & Hx & Hno). unfold Examples.cyclicDocument, Examples.document in Hk.
  simpl in Hk.
  apply lookup_insert_Some in Hk as [[<- [= <-]]|[_ Hk]].
  - vm_compute in Hx. apply list_elem_of_singleton in Hx as ->. discriminate.
  - apply lookup_singleton_Some in Hk as [<- [= <-]].
    vm_compute in Hx. apply list_elem_of_singleton in Hx as ->. discriminate.
Qed.

Lemma reference_cycle_never_resolves_witness :
  (∀ fuel m, getSchemasByEndpoints Examples.cyclicDocument fuel ["/a"] ≠ Returns m) ∧
  (∀ fuel, getSchemasByEndpoints Examples.cyclicDocument fuel ["/a"] = OutOfFuel).
Proof.
  destruct (reference_cycle_never_resolves Examples.cyclicDocument ["/a"] "/a"
              (Examples.operationWithBody (Examples.pointer "A") Examples.okResponses)
              [Examples.pointer "A"] (Examples.pointer "A") "A" "A" "B"
              (Some [("b", Examples.pointer "B")]) (Some [("a", Examples.pointer "A")]))
    as [Hnever Hout].
  - left.
  - vm_compute. reflexivity.
  - vm_compute. reflexivity.
  - left.
  - vm_compute. reflexivity.
  - apply rtc_refl.
  - vm_compute. reflexivity.
  - exists (Examples.pointer "B"). split; [left|vm_compute; reflexivity].
  - vm_compute. reflexivity.
  - exists (Examples.pointer "A"). split; [left|vm_compute; reflexivity].
  - split; [exact Hnever|]. apply Hout; [exact cyclicDocument_allOfReferences|].
    intros endpoint operation ->%list_elem_of_singleton. vm_compute.
    intros [= <-]. eexists. reflexivity.
Defined.

(** The claim of a result on a cycle fails on the smallest one. *)
Lemma reference_cycle_counterexample :
  ¬ ∃ fuel m, getSchemasByEndpoints Examples.cyclicDocument fuel ["/a"] = Returns m.
Proof.
  intros (fuel & m & Hcall).
  destruct (getSchemasByEndpoints_Returns_each _ _ _ _ "/a"
              (Examples.operationWithBody (Examples.pointer "A") Examples.okResponses)
              Hcall) as (refs & sch & Hrefs & Hsch); [left|vm_compute; reflexivity|].
  vm_compute in Hrefs. injection Hrefs as <-.
  destruct (getSchemas_Returns _ _ _ _ Hsch) as (ks & Hks & _ & Hobj).
  destruct (Hobj "A" (Some [("b", Examples.pointer "B")])) as (rs & Hrs).
  - apply (keyed_elem_of _ _ _ Hks). exists (Examples.pointer "A"). split; [left|done].
  - vm_compute. reflexivity.
  - eapply (getReferencesByObject_cycle Examples.cyclicDocument fuel "A"); [| |exact Hrs].
    + vm_compute. reflexivity.
    + exists "A". split; [done|].
      apply tc_l with "B".
      * exists (Some [("b", Examples.pointer "B")]). split; [vm_compute; reflexivity|].
        exists (Examples.pointer "B"). split; [left|vm_compute; reflexivity].
      * apply tc_once. exists (Some [("a", Examples.pointer "A")]).
        split; [vm_compute; reflexivity|].
        exists (Examples.pointer "A"). split; [left|vm_compute; reflexivity].
Qed.

(** ** The single-pass closure *)

Lemma split_has_sep sep s :
  has_char sep s = true → ∃ h x t, split sep s = h :: x :: t.
Proof.
  induction s as [|c s IH]; simpl; [done|].
  destruct (Ascii.eqb c sep) eqn:Hc; simpl.
  - intros _. pose proof (split_not_nil sep s) as Hne.
    destruct (split sep s) as [|x t]; [done|]. by exists "", x, t.
  - intros (h & x & t & ->)%IH. by exists (String c h), x, t.
Qed.

Lemma afterLastSlash_schemaName pointer :
  SinglePass.afterLastSlash pointer = schemaName pointer.
Proof.
  unfold schemaName, utils.last.
  induction pointer as [|c rest IH]; simpl; [done|].
  destruct (has_char "/" rest) eqn:Hrest.
  - rewrite IH. destruct (split_has_sep _ _ Hrest) as (h & x & t & ->).
    by destruct (Ascii.eqb c "/").
  - rewrite (split_no_sep _ _ Hrest). by destruct (Ascii.eqb c "/").
Qed.

Lemma referenceName_getSchemaKey member :
  SinglePass.referenceName member = getSchemaKey member.
Proof. destruct member; simpl; [|done..]. by rewrite afterLastSlash_schemaName. Qed.

Lemma collected_propertyRefs property :
  SinglePass.collected property = propertyRefs property.
Proof. destruct property as [| [] | | |]; done. Qed.

Lemma collected_allPropertyRefs properties :
  (default [] properties).*2 ≫= SinglePass.collected = allPropertyRefs properties.
Proof.
  unfold allPropertyRefs. induction ((default [] properties).*2) as [|z zs IH]; [done|].
  by rewrite !bind_cons, collected_propertyRefs, IH.
Qed.

Lemma mapArrayM_ext {A B} (f g : A → Outcome B) l :
  (∀ x, f x = g x) → mapArrayM f l = mapArrayM g l.
Proof. intros Hfg. induction l as [|x l IH]; simpl; [done|]. by rewrite Hfg, IH. Qed.


Section SinglePassFacts.
Variable spec : IOpenAPI3.
Abbreviation table := (components_schemas spec).

Lemma visited_ok_seen visited name :
  name ∈ visited → SinglePass.visited_ok spec visited [name] (Returns visited).
Proof.
  intros Hin. simpl. split_and!.
  - done.
  - by intros ? ->%list_elem_of_singleton.
  - intros. by left.
  - intros. done.
  - intros. done.
Qed.

Lemma visited_ok_leaf visited name :
  name ∉ visited → (∀ q, table !! name ≠ Some (SObject q)) →
  SinglePass.visited_ok spec visited [name] (Returns ({[name]} ∪ visited)).
Proof.
  intros Hin Hleaf. simpl. split_and!.
  - set_solver.
  - set_solver.
  - intros v [Hv%elem_of_singleton|?]%elem_of_union; [|by left].
    right. exists name. split; [left|by rewrite Hv].
  - intros v v' [Hv%elem_of_singleton|?]%elem_of_union ? (q & Hq & _); [|done].
    rewrite Hv in Hq. by destruct (Hleaf q).
  - intros v q [Hv%elem_of_singleton|?]%elem_of_union ? Hq; [|done].
    rewrite Hv in Hq. by destruct (Hleaf q).
Qed.

Lemma visit_row depth :
  (∀ visited name,
     size (dom table ∖ visited) ≤ depth →
     SinglePass.visited_ok spec visited [name] (SinglePass.visit spec depth visited name)) →
  ∀ names visited,
    size (dom table ∖ visited) ≤ depth →
    SinglePass.visited_ok spec visited names (forEachM (SinglePass.visit spec depth) visited names).
Proof.
  intros Hvisit names. induction names as [|n names IH]; intros visited Hsize.
  - simpl. split_and!; [done|by intros ? ?%elem_of_nil|by left| |]; intros; done.
  - cbn [forEachM]. specialize (Hvisit visited n Hsize).
    destruct (SinglePass.visit spec depth visited n) as [V1|e|]; simpl; [| |done].
    + destruct Hvisit as (Hsub1 & Hin1 & Hreach1 & Hclosed1 & Hwf1).
      assert (size (dom table ∖ V1) ≤ depth) as Hsize1.
      { etrans; [|exact Hsize]. apply subseteq_size. set_solver. }
      specialize (IH V1 Hsize1).
      destruct (forEachM (SinglePass.visit spec depth) V1 names) as [V2|e|]; simpl in *;
        [| |done].
      * destruct IH as (Hsub2 & Hin2 & Hreach2 & Hclosed2 & Hwf2). split_and!.
        -- set_solver.
        -- intros n' [->|Hn']%elem_of_cons; [|by apply Hin2].
           apply Hsub2, Hin1. left.
        -- intros v Hv. destruct (Hreach2 v Hv) as [Hv1|(n' & Hn' & Hrtc)].
           ++ destruct (Hreach1 v Hv1) as [?|(n' & ->%list_elem_of_singleton & Hrtc)];
                [by left|]. right. exists n. split; [left|done].
           ++ right. exists n'. split; [by right|done].
        -- intros v v' Hv Hnew Hedge. destruct (decide (v ∈ V1)) as [Hv1|Hv1].
           ++ apply Hsub2. by eapply Hclosed1.
           ++ by eapply Hclosed2.
        -- intros v q Hv Hnew Hq. destruct (decide (v ∈ V1)) as [Hv1|Hv1].
           ++ by eapply Hwf1.
           ++ by eapply Hwf2.
      * destruct IH as (-> & n' & Hn' & Hinline). split; [done|].
        exists n'. split; [by right|done].
    + destruct Hvisit as (-> & n' & ->%list_elem_of_singleton & Hinline). split; [done|].
      exists n. split; [left|done].
Qed.

Lemma visit_ok depth visited name :
  size (dom table ∖ visited) ≤ depth →
  SinglePass.visited_ok spec visited [name] (SinglePass.visit spec depth visited name).
Proof.
  revert visited name. induction depth as [|depth IH]; intros visited name Hsize.
  - simpl. case_decide as Hin.
    + by apply visited_ok_seen.
    + destruct (table !! name) as [[| |p| |]|] eqn:Hname;
        try (apply visited_ok_leaf; [done|congruence]).
      assert (name ∈ dom table ∖ visited) as Hnew.
      { apply elem_of_difference. split; [by apply elem_of_dom|done]. }
      assert (size (dom table ∖ visited) ≠ 0); [|lia].
      apply size_non_empty_iff. set_solver.
  - cbn [SinglePass.visit]. case_decide as Hin.
    + by apply visited_ok_seen.
    + destruct (table !! name) as [[| |p| |]|] eqn:Hname;
        try (apply visited_ok_leaf; [done|congruence]).
      rewrite collected_allPropertyRefs,
        (mapArrayM_ext _ getSchemaKey _ referenceName_getSchemaKey).
      destruct (mapArrayM getSchemaKey (allPropertyRefs p)) as [names|e|] eqn:Hnames; simpl.
      * apply mapArrayM_Returns in Hnames.
        assert (size (dom table ∖ ({[name]} ∪ visited)) ≤ depth) as Hsize'.
        { assert (dom table ∖ ({[name]} ∪ visited) ⊂ dom table ∖ visited) as Hsub.
          { assert (name ∈ dom table) by by apply elem_of_dom. set_solver. }
          apply subset_size in Hsub. lia. }
        pose proof (visit_row depth IH names _ Hsize') as Hrow.
        destruct (forEachM (SinglePass.visit spec depth) ({[name]} ∪ visited) names)
          as [V'|e|]; simpl in *; [| |done].
        -- destruct Hrow as (Hsub & Hin' & Hreach & Hclosed & Hwf). split_and!.
           ++ set_solver.
           ++ intros ? ->%list_elem_of_singleton. set_solver.
           ++ intros v Hv.
              destruct (Hreach v Hv) as [[Hvn%elem_of_singleton|?]%elem_of_union
                                        |(n & Hn & Hrtc)].
              ** right. exists name. split; [left|by rewrite Hvn].
              ** by left.
              ** right. exists name. split; [left|]. apply rtc_l with n; [|done].
                 exists p. split; [done|]. by apply (keyed_elem_of _ _ _ Hnames).
           ++ intros v v' Hv Hnew Hedge. destruct (decide (v = name)) as [->|Hne].
              ** destruct Hedge as (p' & Hp' & Hrefers).
                 assert (p' = p) as -> by congruence.
                 by apply Hin', (keyed_elem_of _ _ _ Hnames).
              ** eapply Hclosed; [done| |done]. set_solver.
           ++ intros v q Hv Hnew Hq. destruct (decide (v = name)) as [->|Hne].
              ** assert (q = p) as -> by congruence. intros (x & Hx & Hno).
                 assert (∃ k, getSchemaKey x = Returns k) as (k & Hk).
                 { clear -Hnames Hx. induction Hnames as [|y k l ks Hy _ IHl];
                     [by apply elem_of_nil in Hx|].
                   apply elem_of_cons in Hx as [->|Hx]; [by exists k|by apply IHl]. }
                 apply getSchemaKey_Returns in Hk as (ref & -> & _). done.
              ** eapply Hwf; [done| |done]. set_solver.
        -- destruct Hrow as (-> & n & Hn & k & q & Hrtc & Hq & Hinline). split; [done|].
           exists name. split; [left|]. exists k, q. split_and!; [|done..].
           apply rtc_l with n; [|done]. exists p. split; [done|].
           by apply (keyed_elem_of _ _ _ Hnames).
      * apply mapArrayM_Throws in Hnames as (x & Hx & [-> Hno]%getSchemaKey_Throws).
        split; [done|]. exists name. split; [left|]. exists name, p.
        split_and!; [done..|]. by exists x.
      * apply mapArrayM_OutOfFuel in Hnames as (x & _ & Hx).
        by apply getSchemaKey_not_OutOfFuel in Hx.
Qed.



(** The visits from no name visited: the closure of the names, or a
    failure on an inline member in reach; never a depth exceeded. *)
Lemma closure_visited (names : list string) :
  match forEachM (SinglePass.visit spec (size table)) ∅ names with
  | Returns visited =>
      (∀ k, k ∈ visited ↔ inClosure spec names k) ∧
      (∀ n, n ∈ names → ¬ reachesInline spec n)
  | Throws e => e = UndefinedRef ∧ ∃ n, n ∈ names ∧ reachesInline spec n
  | OutOfFuel => False
  end.
Proof.
  pose proof (visit_row (size table) (visit_ok (size table)) names ∅) as Hrow.
  destruct (forEachM (SinglePass.visit spec (size table)) ∅ names) as [V|e|];
    simpl in Hrow.
  - destruct Hrow as (_ & Hin & Hreach & Hclosed & Hwf).
    { rewrite difference_empty_L, size_dom. done. }
    assert (∀ k0 k, rtc (edge spec) k0 k → k0 ∈ V → k ∈ V) as Hrtc.
    { induction 1 as [|x y z Hxy _ IH]; [done|]. intros Hx. apply IH.
      eapply Hclosed; [done|apply not_elem_of_empty|done]. }
    split.
    + intros k. split.
      * intros Hk. destruct (Hreach k Hk) as [?|(n & ? & ?)]; [set_solver|by exists n].
      * intros (k0 & Hk0 & Hk). apply (Hrtc k0); [done|by apply Hin].
    + intros n Hn (k & q & Hk & Hq & Hinline).
      apply (Hwf k q); [|apply not_elem_of_empty|done..].
      apply (Hrtc n); [done|by apply Hin].
  - apply Hrow. rewrite difference_empty_L, size_dom. done.
  - apply Hrow. rewrite difference_empty_L, size_dom. done.
Qed.




(** The single pass ends on every table, cyclic or not. *)
Lemma closureOf_not_OutOfFuel refs : SinglePass.closureOf spec refs ≠ OutOfFuel.
Proof.
  unfold SinglePass.closureOf.
  intros [(x & _ & Hx)%mapArrayM_OutOfFuel
         |(names & _ & [Hvisit|(? & _ & ?)]%bind_OutOfFuel)]%bind_OutOfFuel.
  - by destruct x.
  - pose proof (closure_visited names) as Hclosure. by rewrite Hvisit in Hclosure.
  - done.
Qed.
End SinglePassFacts.

Lemma schemasForEndpoints_not_OutOfFuel (spec : IOpenAPI3) (endpoints : list string) :
  SinglePass.schemasForEndpoints spec endpoints ≠ OutOfFuel.
Proof.
  unfold SinglePass.schemasForEndpoints.
  intros (store & [o|] & _ & Hbody)%forEachM_OutOfFuel; [|done].
  apply bind_OutOfFuel in Hbody
    as [Hout%getReferencesByOperation_not_OutOfFuel|(refs & _ & Hbody)]; [done|].
  apply bind_OutOfFuel in Hbody as [Hout%closureOf_not_OutOfFuel|(? & _ & ?)]; done.
Qed.






(** Without the hypothesis the two differ: the single pass ends on the
    cycle that the service never leaves. *)
Lemma single_pass_on_cycle :
  ∃ m, SinglePass.schemasForEndpoints Examples.cyclicDocument ["/a"] = Returns m ∧
       dom m = {[ "A"; "B" ]}.
Proof.
  assert (∃ m, SinglePass.schemasForEndpoints Examples.cyclicDocument ["/a"] = Returns m)
    as [m Hm] by (vm_compute; eexists; reflexivity).
  exists m. split; [done|].
  assert (match SinglePass.schemasForEndpoints Examples.cyclicDocument ["/a"] with
          | Returns m => (map_to_list m).*1 = ["A"; "B"]
          | _ => False
          end) as Hkeys by (vm_compute; reflexivity).
  rewrite Hm in Hkeys. apply set_eq. intros k.
  rewrite elem_of_dom, elem_of_union, !elem_of_singleton.
  assert (is_Some (m !! k) ↔ k ∈ (map_to_list m).*1) as ->.
  { rewrite list_elem_of_fmap. split.
    - intros [v Hv]. exists (k, v). by rewrite elem_of_map_to_list.
    - intros ([k' v] & -> & Hv%elem_of_map_to_list). by exists v. }
  rewrite Hkeys. set_solver.
Qed.

Lemma getOperationByEndpoint_first_suffix_match_witness :
  getOperationByEndpoint Examples.orderedDocument "/users"
    = Some (Examples.plainOperation "v2") ∧
  getOperationByEndpoint Examples.orderedDocument "/api/users"
    = Some (Examples.plainOperation "list") ∧
  getOperationByEndpoint Examples.orderedDocument "/api/none" = None ∧
  getOperationByEndpoint Examples.orderedDocument "/nothing" = None.
Proof.
  split_and!.
  - apply (proj1 (getOperationByEndpoint_first_suffix_match Examples.orderedDocument "/users")
             [] "/v2/users" _ _ eq_refl); [constructor|by exists "/v2"].
  - apply (proj1 (getOperationByEndpoint_first_suffix_match Examples.orderedDocument
                    "/api/users")
             [_] "/api/users" _ _ eq_refl); [|by exists ""].
    repeat constructor; simpl; intros H%endsWith_suffix; vm_compute in H; discriminate.
  - apply (proj1 (getOperationByEndpoint_first_suffix_match Examples.orderedDocument
                    "/api/none")
             [_; _] "/api/none" Examples.noMethod _ eq_refl); [|by exists ""].
    repeat constructor; simpl; intros H%endsWith_suffix; vm_compute in H; discriminate.
  - apply (proj2 (getOperationByEndpoint_first_suffix_match Examples.orderedDocument
                    "/nothing")).
    repeat constructor; simpl; intros H%endsWith_suffix; vm_compute in H; discriminate.
Defined.

Lemma constructor_accepts_major_3_only_witness :
  (∃ service, new_OpenAPIService Examples.usersDocument = Returns service) ∧
  new_OpenAPIService {| openapi := Some "2.0"; paths := None; components_schemas := ∅ |}
    = Throws UnsupportedVersion ∧
  new_OpenAPIService {| openapi := None; paths := None; components_schemas := ∅ |}
    = Throws UnsupportedVersion.
Proof.
  split_and!.
  - apply (proj1 (constructor_accepts_major_3_only Examples.usersDocument)).
    exists "3.0.1". split; [reflexivity|]. split; [reflexivity|]. right. by exists "0.1".
  - apply (proj1 (proj2 (proj2 (constructor_accepts_major_3_only _)))).
    intros (version & [= <-] & _ & [?|[rest ?]]); discriminate.
  - by apply (proj2 (proj2 (proj2 (constructor_accepts_major_3_only _)))).
Defined.

Lemma getEndpoints_sorted_keys_witness :
  StronglySorted (λ a b, lexicographic (codeUnits a) (codeUnits b))
    (getEndpoints Examples.orderedDocument) ∧
  getEndpoints Examples.orderedDocument ≡ₚ ["/v2/users"; "/api/users"; "/api/none"] ∧
  getEndpoints {| openapi := Some "3.0.0"; paths := None; components_schemas := ∅ |} = [] ∧
  StronglySorted (λ a b, lexicographic (codeUnits a) (codeUnits b))
    (getEndpoints Examples.unicodeDocument).
Proof.
  split_and!.
  - apply getEndpoints_sorted_keys.
  - apply (proj1 (proj2 (getEndpoints_sorted_keys Examples.orderedDocument))).
  - by apply (proj2 (proj2 (proj2 (getEndpoints_sorted_keys _)))).
  - apply getEndpoints_sorted_keys.
Defined.

Example getEndpoints_example :
  getEndpoints Examples.orderedDocument = ["/api/none"; "/api/users"; "/v2/users"].
Proof. reflexivity. Qed.

(** Beyond ASCII the order is that of the code units, not of the code
    points: U+1F600 starts with the code unit D83D, which is below FF5E. *)
Example getEndpoints_code_units :
  getEndpoints Examples.unicodeDocument = ["/😀"; "/～"] ∧
  codeUnits "/😀" = [47; 55357; 56832]%N ∧ codeUnits "/～" = [47; 65374]%N.
Proof. split_and!; reflexivity. Qed.

(** * Further properties of the service *)

(** ** The operations of the endpoints *)

(** X1: [getOperationsByEndpoints] has a key exactly for the endpoints of
    the set, other than [__proto__], that resolve to an operation, and its
    value is that operation; the endpoint [__proto__], when it is in the
    set and resolves, gives the result its prototype and no key. *)
Theorem getOperationsByEndpoints_entries (spec : IOpenAPI3) (endpoints : list string) :
  (∀ k o, getOperationsByEndpoints spec endpoints !! k = Some o ↔
          k ∈ endpoints ∧ k ≠ "__proto__" ∧ getOperationByEndpoint spec k = Some o) ∧
  (∀ o, prototype (getOperationsByEndpoints spec endpoints) = Some o ↔
        "__proto__" ∈ endpoints ∧ getOperationByEndpoint spec "__proto__" = Some o).
Proof.
  split.
  - intros k o. rewrite getOperationsByEndpoints_lookup. case_decide as Hin.
    + destruct Hin. split; [by intros ?|by intros (_ & _ & ?)].
    + split; [done|]. intros (? & ? & _). by destruct Hin.
  - intros o. rewrite getOperationsByEndpoints_prototype. case_decide as Hin.
    + split; [by intros ?|by intros [_ ?]].
    + split; [done|by intros [? _]].
Qed.

(** X2: the tags of an endpoint of the set are those of the operation
    that [getOperationsByEndpoints] has under its name (of its prototype,
    for the endpoint [__proto__]), and there are none when it has no
    operation there or the operation has no tags. *)
Theorem getTagsByEndpoint_of_entry (spec : IOpenAPI3) (endpoints : list string)
    (endpoint : string) :
  endpoint ∈ endpoints →
  getTagsByEndpoint spec endpoint =
    match (if decide (endpoint = "__proto__")
           then prototype (getOperationsByEndpoints spec endpoints)
           else getOperationsByEndpoints spec endpoints !! endpoint) with
    | Some o => default [] (tags o)
    | None => []
    end.
Proof.
  intros Hin. unfold getTagsByEndpoint. case_decide as Hname.
  - subst. by rewrite getOperationsByEndpoints_prototype, decide_True.
  - by rewrite getOperationsByEndpoints_lookup, decide_True.
Qed.

Lemma getTagsByEndpoint_of_entry_witness :
  getTagsByEndpoint MoreExamples.shopDocument "/orders" = ["orders"; "admin"] ∧
  getTagsByEndpoint MoreExamples.shopDocument "/users" = [] ∧
  getTagsByEndpoint MoreExamples.shopDocument "/nothing" = [] ∧
  getTagsByEndpoint Examples.protoPathDocument "__proto__" = ["proto"] ∧
  getOperationsByEndpoints Examples.protoPathDocument ["__proto__"] !! "__proto__" = None.
Proof.
  split_and!.
  - rewrite (getTagsByEndpoint_of_entry MoreExamples.shopDocument ["/orders"] "/orders")
      by left.
    reflexivity.
  - rewrite (getTagsByEndpoint_of_entry MoreExamples.shopDocument ["/users"] "/users")
      by left.
    reflexivity.
  - rewrite (getTagsByEndpoint_of_entry MoreExamples.shopDocument ["/nothing"] "/nothing")
      by left.
    reflexivity.
  - rewrite (getTagsByEndpoint_of_entry Examples.protoPathDocument ["__proto__"] "__proto__")
      by left.
    reflexivity.
  - reflexivity.
Defined.

(** ** Endpoints at the bounds *)

Lemma append_empty_r s : s +:+ "" = s.
Proof.
  induction s as [|c s IH]; [done|].
  change (String c (s +:+ "") = String c s). by rewrite IH.
Qed.

Lemma endsWith_empty key : endsWith key "" = true.
Proof. apply endsWith_suffix. exists key. by rewrite append_empty_r. Qed.

Lemma endsWith_longer key endpoint :
  String.length key < String.length endpoint → endsWith key endpoint = false.
Proof.
  intros Hlen. apply endsWith_false. intros [pre ->]. rewrite length_app in Hlen. lia.
Qed.

(** X3: the empty endpoint is a suffix of every key, so it resolves to
    the first path of the document; an endpoint longer than every key
    resolves to nothing. *)
Theorem getOperationByEndpoint_bounds (spec : IOpenAPI3) :
  (∀ key pathItem rest,
     paths spec = Some ((key, pathItem) :: rest) →
     getOperationByEndpoint spec "" =
       firstPresent [http_get pathItem; http_post pathItem;
                     http_put pathItem; http_delete pathItem]) ∧
  (∀ endpoint,
     Forall (λ key, String.length key < String.length endpoint) (pathKeys spec) →
     getOperationByEndpoint spec endpoint = None).
Proof.
  split.
  - intros key pathItem rest Hpaths. unfold getOperationByEndpoint. rewrite Hpaths.
    simpl. rewrite endsWith_empty.
    by destruct (http_get pathItem), (http_post pathItem), (http_put pathItem),
      (http_delete pathItem).
  - intros endpoint Hlong. unfold getOperationByEndpoint, pathKeys in *.
    destruct (paths spec) as [ps|]; [|done]. simpl in Hlong.
    rewrite find_no_match; [done|].
    apply Forall_fmap in Hlong. eapply Forall_impl; [exact Hlong|].
    intros [key item] Hlen. by apply endsWith_longer.
Qed.

Lemma getOperationByEndpoint_bounds_witness :
  getOperationByEndpoint Examples.orderedDocument "" = Some (Examples.plainOperation "v2") ∧
  getOperationByEndpoint Examples.orderedDocument "/v2/api/users/all" = None.
Proof.
  split.
  - apply (proj1 (getOperationByEndpoint_bounds Examples.orderedDocument)
             "/v2/users" _ _ eq_refl).
  - apply (proj2 (getOperationByEndpoint_bounds Examples.orderedDocument)).
    repeat constructor.
Defined.

(** ** The name of a reference *)

Lemma split_segments sep s : Forall (λ seg, has_char sep seg = false) (split sep s).
Proof.
  induction s as [|c s IH]; simpl; [by repeat constructor|].
  destruct (Ascii.eqb c sep) eqn:Hc; [by constructor|].
  destruct (split sep s) as [|h t];
    [constructor; [simpl; by rewrite Hc|constructor]|].
  inversion IH as [|? ? Hh Ht]; subst. constructor; [|done]. simpl. by rewrite Hc.
Qed.

(** X4: the key of a reference is the last segment of its pointer: it has
    no ['/'] in it; a pointer that ends with ['/'] and a name without
    ['/'] has that name for key, whatever comes before; and a pointer
    without ['/'] is its own key. *)
Theorem getSchemaKey_last_segment :
  (∀ ref k, getSchemaKey (SReference ref) = Returns k → has_char "/" k = false) ∧
  (∀ pre name,
     has_char "/" name = false →
     getSchemaKey (SReference (pre +:+ String "/" name)) = Returns name) ∧
  (∀ ref, has_char "/" ref = false → getSchemaKey (SReference ref) = Returns ref).
Proof.
  split_and!.
  - intros ref k [= <-]. pose proof (split_segments "/" ref) as Hsegs.
    pose proof (split_not_nil "/" ref) as Hne. unfold utils.last.
    destruct (last (split "/" ref)) as [seg|] eqn:Hlast; simpl.
    + rewrite Forall_forall in Hsegs. apply Hsegs.
      apply last_Some in Hlast as [l ->]. apply elem_of_app. right. left.
    + by apply last_None in Hlast.
  - apply getSchemaKey_pointer.
  - intros ref Hno. simpl. by rewrite split_no_sep.
Qed.

Lemma getSchemaKey_last_segment_witness :
  getSchemaKey (SReference "#/components/schemas/User") = Returns "User" ∧
  getSchemaKey (SReference "other.json#/definitions/User") = Returns "User" ∧
  getSchemaKey (SReference "User") = Returns "User".
Proof.
  split_and!.
  - apply (proj1 (proj2 getSchemaKey_last_segment) "#/components/schemas" "User").
    reflexivity.
  - apply (proj1 (proj2 getSchemaKey_last_segment) "other.json#/definitions" "User").
    reflexivity.
  - apply (proj2 (proj2 getSchemaKey_last_segment) "User"). reflexivity.
Defined.

(** ** Endpoints that resolve to nothing *)

(** X12: when none of the endpoints resolves to an operation (as on a
    document without paths, or for the empty set), the schemas are the
    empty mapping, whatever the table and the budget, the operations are
    the empty mapping and no endpoint has a tag. *)
Theorem nothing_resolved_nothing_returned (spec : IOpenAPI3) (fuel : nat)
    (endpoints : list string) :
  (∀ endpoint, endpoint ∈ endpoints → getOperationByEndpoint spec endpoint = None) →
  getSchemasByEndpoints spec fuel endpoints = Returns ∅ ∧
  getOperationsByEndpoints spec endpoints = ∅ ∧
  (∀ endpoint, endpoint ∈ endpoints → getTagsByEndpoint spec endpoint = []).
Proof.
  intros Hnone. split_and!.
  - rewrite getSchemasByEndpoints_loop. generalize (∅ : gmap string (JSValue Schema)).
    induction endpoints as [|ep eps IH]; intros store; simpl; [done|].
    rewrite (Hnone ep) by left. simpl. apply IH. intros. apply Hnone. by right.
  - apply JSObject_eq.
    + intros k. rewrite getOperationsByEndpoints_lookup, JSObject_lookup_empty.
      case_decide as Hk; [|done]. apply Hnone, Hk.
    + rewrite getOperationsByEndpoints_prototype. case_decide; [by apply Hnone|done].
  - intros endpoint Hin. unfold getTagsByEndpoint. by rewrite Hnone.
Qed.

Lemma nothing_resolved_nothing_returned_witness :
  getSchemasByEndpoints Examples.cyclicDocument 0 ["/b"; "/c"] = Returns ∅ ∧
  getSchemasByEndpoints {| openapi := Some "3.0.0"; paths := None;
                           components_schemas := ∅ |} 0 ["/a"] = Returns ∅ ∧
  getSchemasByEndpoints Examples.cyclicDocument 0 [] = Returns ∅.
Proof.
  split_and!.
  - apply (nothing_resolved_nothing_returned Examples.cyclicDocument 0 ["/b"; "/c"]).
    intros endpoint [->|[->|Hnil%elem_of_nil]%elem_of_cons]%elem_of_cons;
      [reflexivity|reflexivity|done].
  - apply (nothing_resolved_nothing_returned _ 0 ["/a"]). intros endpoint _. reflexivity.
  - apply (nothing_resolved_nothing_returned Examples.cyclicDocument 0 []).
    intros endpoint Hnil. by apply elem_of_nil in Hnil.
Defined.

(** ** Where the references of an operation come from *)

Lemma elem_of_getSchemaFromContent refs s x :
  x ∈ getSchemaFromContent refs s ↔
  x ∈ refs ∨ (isReference (Some x) = true ∧ (s = Some x ∨ s = Some (SArray x))).
Proof.
  destruct s as [[r|[r'| | | |]| | |]|]; unfold getSchemaFromContent; simpl;
    rewrite ?elem_of_app, ?list_elem_of_singleton; naive_solver.
Qed.

Lemma elem_of_parameter_refs (ps : list IOpenAPI3Parameter) refs x :
  x ∈ foldl (λ refs z, if isReference (param_schema z)
                       then match param_schema z with Some r => refs ++ [r] | None => refs end
                       else refs) refs ps ↔
  x ∈ refs ∨ (isReference (Some x) = true ∧ ∃ z, z ∈ ps ∧ param_schema z = Some x).
Proof.
  revert refs. induction ps as [|z ps IH]; intros refs; simpl.
  - split; [by left|]. intros [?|(_ & ? & Hnil & _)]; [done|by apply elem_of_nil in Hnil].
  - rewrite IH. split.
    + intros [Hx|(Href & z' & Hz' & Hs)].
      * destruct (isReference (param_schema z)) eqn:Hz; [|by left].
        destruct (param_schema z) as [r|] eqn:Hr; [|by left].
        apply elem_of_app in Hx as [?| ->%list_elem_of_singleton]; [by left|].
        right. split; [done|]. exists z. split; [left|done].
      * right. split; [done|]. exists z'. split; [by right|done].
    + intros [Hx|(Href & z' & [->|Hz']%elem_of_cons & Hs)].
      * left. destruct (isReference (param_schema z)); [|done].
        destruct (param_schema z); [|done]. apply elem_of_app. by left.
      * left. rewrite Hs. destruct x; try done. simpl. apply elem_of_app. right. left.
      * right. split; [done|]. by exists z'.
Qed.

(** X5: with a 200 response, the references of an operation are exactly
    the references among: the schemas of its parameters, the schema of its
    [application/json] request body or the items of that schema, and the
    schema of the [application/json] content of the 200 response or its
    items.  Other content types and other responses count for nothing. *)
Theorem getReferencesByOperation_sites (operation : IOpenAPI3Operation)
    (response : Response) :
  responses operation !! "200" = Some response →
  ∃ refs,
    getReferencesByOperation operation = Returns refs ∧
    ∀ x, x ∈ refs ↔
      isReference (Some x) = true ∧
      ((∃ z, z ∈ default [] (parameters operation) ∧ param_schema z = Some x) ∨
       (∃ body, requestBody operation = Some body ∧
                (jsonSchema (request_content body) = Some x ∨
                 jsonSchema (request_content body) = Some (SArray x))) ∨
       (∃ content, response_content response = Some content ∧
                   (jsonSchema content = Some x ∨ jsonSchema content = Some (SArray x)))).
Proof.
  intros Hresponse. unfold getReferencesByOperation. rewrite Hresponse.
  eexists. split; [done|]. intros x.
  rewrite !elem_of_getSchemaFromContent, elem_of_parameter_refs. split.
  - intros [[[Hnil|[Href Hparam]]|[Href Hbody]]|[Href Hresp]].
    + by apply elem_of_nil in Hnil.
    + split; [done|]. by left.
    + split; [done|]. right. left.
      destruct (requestBody operation) as [body|]; simpl in Hbody;
        [by exists body|by destruct Hbody].
    + split; [done|]. right. right.
      destruct (response_content response) as [content|]; simpl in Hresp;
        [by exists content|by destruct Hresp].
  - intros [Href [Hparam|[(body & Hbody & Hschema)|(content & Hcontent & Hschema)]]].
    + left. left. right. done.
    + left. right. split; [done|]. by rewrite Hbody.
    + right. split; [done|]. by rewrite Hcontent.
Qed.

Lemma getReferencesByOperation_sites_witness :
  getReferencesByOperation MoreExamples.richOperation
  = Returns [Examples.pointer "Filter"; Examples.pointer "Item"; Examples.pointer "Result"].
Proof.
  destruct (getReferencesByOperation_sites MoreExamples.richOperation
              {| response_content :=
                   Some (Examples.jsonContent (Examples.pointer "Result")) |})
    as (refs & Hrefs & _); [reflexivity|].
  rewrite Hrefs. f_equal. vm_compute in Hrefs. by injection Hrefs as <-.
Defined.

(** ** What [getReferencesByObject] returns *)

(** X6: the references that [getReferencesByObject] returns are
    references all, and the schemas they name are exactly those reached
    from the properties of the object: named by a property, or by a
    property of an object schema so reached. *)
Theorem getReferencesByObject_names_reached (spec : IOpenAPI3) (fuel : nat)
    (properties : option (list (string * Schema))) (refs : list Schema) :
  getReferencesByObject spec fuel properties = Returns refs →
  Forall (λ y, isReference (Some y) = true) refs ∧
  ∀ k, (∃ y, y ∈ refs ∧ getSchemaKey y = Returns k) ↔
       (∃ k0, refersTo properties k0 ∧ rtc (edge spec) k0 k).
Proof.
  intros Hrefs. split.
  - apply Forall_forall. intros y Hy.
    destruct (getReferencesByObject_sound _ _ _ _ _ Hrefs Hy)
      as (_ & k & _ & _ & (ref & -> & _)%getSchemaKey_Returns).
    done.
  - intros k. split.
    + intros (y & Hy & Hk).
      destruct (getReferencesByObject_sound _ _ _ _ _ Hrefs Hy) as (k0 & k' & ? & ? & Hk').
      exists k0. assert (k' = k) as -> by congruence. done.
    + intros (k0 & Hk0 & Hrtc). by eapply getReferencesByObject_complete.
Qed.

Lemma getReferencesByObject_names_reached_witness :
  getReferencesByObject MoreExamples.shopDocument 3
    (Some [("buyer", Examples.pointer "User")])
  = Returns [Examples.pointer "User"; Examples.pointer "Address"] ∧
  Forall (λ y, isReference (Some y) = true)
    [Examples.pointer "User"; Examples.pointer "Address"].
Proof.
  split; [reflexivity|].
  apply (getReferencesByObject_names_reached MoreExamples.shopDocument 3
           (Some [("buyer", Examples.pointer "User")])).
  reflexivity.
Defined.

(** ** What the result holds, and nothing more *)

(** X7: a mapping that [getSchemasByEndpoints] returns has a key for a
    name exactly when the name is not [__proto__] and an operation of the
    endpoints names it directly or it is reached from a name that is; the
    value is what the table gives for the name: its definition exactly
    when the table has one.  No schema out of reach is in the result, none
    under another name, and nothing under [__proto__]. *)
Theorem getSchemasByEndpoints_exactly_the_closure (spec : IOpenAPI3) (fuel : nat)
    (endpoints : list string) (m : gmap string (JSValue Schema)) :
  getSchemasByEndpoints spec fuel endpoints = Returns m →
  (∀ k v, m !! k = Some v ↔
          endpointClosure spec endpoints k ∧ k ≠ "__proto__" ∧
          v = getProperty (components_schemas spec) k) ∧
  (∀ k definition, m !! k = Some (Defined definition) ↔
          endpointClosure spec endpoints k ∧ k ≠ "__proto__" ∧
          components_schemas spec !! k = Some definition) ∧
  m !! "__proto__" = None.
Proof.
  intros Hcall. pose proof (getSchemasByEndpoints_Returns _ _ _ _ Hcall) as Hm.
  split_and!; [done| |].
  - intros k definition. rewrite Hm. rewrite <- getProperty_Defined. naive_solver.
  - destruct (m !! "__proto__") as [v|] eqn:Hv; [|done]. by apply Hm in Hv as (_ & ? & _).
Qed.

Lemma getSchemasByEndpoints_exactly_the_closure_witness :
  ∃ m, getSchemasByEndpoints MoreExamples.shopDocument 2 ["/users"] = Returns m ∧
       (∀ k v, m !! k = Some v ↔
               endpointClosure MoreExamples.shopDocument ["/users"] k ∧ k ≠ "__proto__" ∧
               v = getProperty (components_schemas MoreExamples.shopDocument) k) ∧
       m !! "Item" = None.
Proof.
  assert (∃ m, getSchemasByEndpoints MoreExamples.shopDocument 2 ["/users"] = Returns m)
    as [m Hcall] by (vm_compute; eexists; reflexivity).
  exists m. split; [exact Hcall|]. split.
  - exact (proj1 (getSchemasByEndpoints_exactly_the_closure MoreExamples.shopDocument 2
                    ["/users"] m Hcall)).
  - assert (match getSchemasByEndpoints MoreExamples.shopDocument 2 ["/users"] with
            | Returns m => m !! "Item" = None
            | _ => False
            end) as Hnone by (vm_compute; reflexivity).
    by rewrite Hcall in Hnone.
Defined.

(** ** Sets of endpoints put together *)

Lemma endpointLoop_store (spec : IOpenAPI3) fuel (ops : list (option IOpenAPI3Operation))
    (store : gmap string (JSValue Schema)) :
  forEachM (λ store operation,
      match operation with
      | None => Returns store
      | Some o =>
          refs ← getReferencesByOperation o;
          schemas ← getSchemas spec fuel refs;
          Returns (own schemas ∪ store)
      end) store ops
  = m ← forEachM (λ store operation,
           match operation with
           | None => Returns store
           | Some o =>
               refs ← getReferencesByOperation o;
               schemas ← getSchemas spec fuel refs;
               Returns (own schemas ∪ store)
           end) ∅ ops;
    Returns (m ∪ store).
Proof.
  revert store. induction ops as [|o ops IH]; intros store; simpl.
  - by rewrite (left_id_L ∅ (∪)).
  - destruct o as [o|]; simpl; [|apply IH].
    destruct (getReferencesByOperation o) as [refs| |]; simpl; [|done..].
    destruct (getSchemas spec fuel refs) as [sch| |]; simpl; [|done..].
    rewrite (IH (own sch ∪ store)), (IH (own sch ∪ ∅)).
    destruct (forEachM _ ∅ ops) as [m| |]; simpl; [|done..].
    by rewrite (right_id_L ∅ (∪)), (assoc_L (∪)).
Qed.

(** X8: the schemas of two lists of endpoints put end to end are those
    of the first, then those of the second, joined; and the first failure
    met is the failure of the whole. *)
Theorem getSchemasByEndpoints_app (spec : IOpenAPI3) (fuel : nat)
    (endpoints1 endpoints2 : list string) :
  getSchemasByEndpoints spec fuel (endpoints1 ++ endpoints2) =
    m1 ← getSchemasByEndpoints spec fuel endpoints1;
    m2 ← getSchemasByEndpoints spec fuel endpoints2;
    Returns (m2 ∪ m1).
Proof.
  rewrite !getSchemasByEndpoints_loop, fmap_app, forEachM_app.
  destruct (forEachM _ ∅ (getOperationByEndpoint spec <$> endpoints1)) as [m1| |];
    simpl; [|done..].
  apply endpointLoop_store.
Qed.

(** ** The order of the endpoints *)

Lemma endpointClosure_same_elements (spec : IOpenAPI3) (l l' : list string) k :
  (∀ e, e ∈ l → e ∈ l') → endpointClosure spec l k → endpointClosure spec l' k.
Proof.
  intros Hsub (ep & op & ks & Hep & Hop & Hks & Hk). exists ep, op, ks.
  split_and!; [by apply Hsub|done..].
Qed.

(** X9: the results depend on the set of the endpoints only, not on the
    order in which it is run through or on repetitions: the operations of
    two lists with the same elements are the same, and when the schemas of
    one are returned, the same schemas are returned for the other. *)
Theorem results_depend_on_the_set_only (spec : IOpenAPI3) (fuel : nat)
    (endpoints endpoints' : list string) :
  (∀ e, e ∈ endpoints ↔ e ∈ endpoints') →
  getOperationsByEndpoints spec endpoints = getOperationsByEndpoints spec endpoints' ∧
  (∀ m, getSchemasByEndpoints spec fuel endpoints = Returns m →
        getSchemasByEndpoints spec fuel endpoints' = Returns m).
Proof.
  intros Hsame. split.
  - apply JSObject_eq.
    + intros k. rewrite !getOperationsByEndpoints_lookup.
      destruct (decide (k ∈ endpoints ∧ k ≠ "__proto__")) as [[Hk Hname]|Hk].
      * rewrite decide_True; [done|]. split; [by apply Hsame|done].
      * rewrite decide_False; [done|]. intros [Hk' Hname]. apply Hk.
        split; [by apply Hsame|done].
    + rewrite !getOperationsByEndpoints_prototype.
      destruct (decide ("__proto__" ∈ endpoints)) as [Hk|Hk].
      * by rewrite decide_True by by apply Hsame.
      * by rewrite decide_False by by rewrite <- Hsame.
  - intros m Hcall.
    assert (∃ m', getSchemasByEndpoints spec fuel endpoints' = Returns m') as [m' Hcall'].
    { rewrite getSchemasByEndpoints_loop.
      generalize (∅ : gmap string (JSValue Schema)).
      assert (∀ e, e ∈ endpoints' → e ∈ endpoints) as Hsub by (intros; by apply Hsame).
      clear Hsame. induction endpoints' as [|ep eps IH]; intros store; simpl;
        [by eexists|].
      destruct (getOperationByEndpoint spec ep) as [op|] eqn:Hop; simpl.
      - destruct (getSchemasByEndpoints_Returns_each spec fuel endpoints m ep op Hcall)
          as (refs & sch & -> & Hsch); [apply Hsub; left|done|].
        simpl. rewrite Hsch. simpl. apply IH. intros. apply Hsub. by right.
      - apply IH. intros. apply Hsub. by right. }
    rewrite Hcall'. f_equal. apply map_eq. intros k. apply option_eq. intros v.
    rewrite (getSchemasByEndpoints_Returns _ _ _ _ Hcall'),
      (getSchemasByEndpoints_Returns _ _ _ _ Hcall).
    split; intros (Hk & Hname & ->); (split_and!; [|done..]);
      (eapply endpointClosure_same_elements; [|exact Hk]); intros; by apply Hsame.
Qed.

Lemma results_depend_on_the_set_only_witness :
  getOperationsByEndpoints MoreExamples.shopDocument ["/orders"; "/users"; "/orders"]
  = getOperationsByEndpoints MoreExamples.shopDocument ["/users"; "/orders"] ∧
  ∃ m, getSchemasByEndpoints MoreExamples.shopDocument 4 ["/users"; "/orders"] = Returns m ∧
       getSchemasByEndpoints MoreExamples.shopDocument 4 ["/orders"; "/users"; "/orders"]
       = Returns m.
Proof.
  assert (∀ e : string, e ∈ ["/users"; "/orders"] ↔ e ∈ ["/orders"; "/users"; "/orders"])
    as Hsame by set_solver.
  split.
  - symmetry.
    apply (results_depend_on_the_set_only MoreExamples.shopDocument 0 _ _ Hsame).
  - assert (∃ m, getSchemasByEndpoints MoreExamples.shopDocument 4 ["/users"; "/orders"]
                 = Returns m) as [m Hcall] by (vm_compute; eexists; reflexivity).
    exists m. split; [exact Hcall|].
    apply (results_depend_on_the_set_only MoreExamples.shopDocument 4 _ _ Hsame), Hcall.
Defined.

(** ** Inline members of a composition *)

(** X11: a member of an [allOf] property that is not a reference, in an
    object schema reached from an operation of the endpoints, is never
    put in the result: nothing is returned, and on a table without a
    cycle the call for that endpoint throws on reading the [$ref] that
    the member does not have. *)
Theorem inline_member_is_never_returned (spec : IOpenAPI3) (endpoints : list string)
    (endpoint : string) (operation : IOpenAPI3Operation) (ks : list string) (z : string) :
  endpoint ∈ endpoints →
  getOperationByEndpoint spec endpoint = Some operation →
  operationKeys operation ks → z ∈ ks → reachesInline spec z →
  (∀ fuel m, getSchemasByEndpoints spec fuel endpoints ≠ Returns m) ∧
  (Acyclic spec →
   ∀ fuel, size (components_schemas spec) ≤ fuel →
     getSchemasByEndpoints spec fuel [endpoint] = Throws UndefinedRef).
Proof.
  intros Hep Hop (refs & Hrefs & Hks) Hz Hinline.
  assert (∀ eps, endpoint ∈ eps → ∀ fuel m, getSchemasByEndpoints spec fuel eps ≠ Returns m)
    as Hnever.
  { intros eps Hin fuel m Hcall.
    destruct (getSchemasByEndpoints_Returns_each _ _ _ _ _ _ Hcall Hin Hop)
      as (refs' & sch & Hrefs' & Hsch).
    assert (refs' = refs) as -> by congruence.
    by destruct (getSchemas_Returns_wellformed _ _ _ _ _ z Hsch Hks). }
  split; [by apply Hnever|]. intros Hacyclic fuel Hfuel.
  destruct (getSchemasByEndpoints spec fuel [endpoint]) as [m|e|] eqn:Hcall.
  - destruct (Hnever [endpoint] ltac:(left) fuel m Hcall).
  - apply getSchemasByEndpoints_Throws in Hcall
      as (ep & op & ->%list_elem_of_singleton & Hop' & [[_ Hno]|[-> _]]); [|done].
    assert (op = operation) as -> by congruence.
    apply getReferencesByOperation_Returns in Hrefs as [_ [? ?]]. congruence.
  - apply getSchemasByEndpoints_OutOfFuel in Hcall
      as (_ & _ & _ & z' & p & _ & _ & _ & _ & Hp & Hout).
    destruct (getReferencesByObject_enough_fuel spec fuel ∅ z' p); try done.
    rewrite difference_empty_L, size_dom. done.
Qed.

Lemma inlineDocument_Acyclic : Acyclic MoreExamples.inlineDocument.
Proof.
  apply (acyclic_by_rank _ (λ k, if decide (k = "Pet") then 1 else 0)).
  intros k k' (p & Hp & x & Hx & Hk').
  unfold MoreExamples.inlineDocument, Examples.document in Hp. simpl in Hp.
  apply lookup_insert_Some in Hp as [[<- [= <-]]|[_ Hp]].
  - vm_compute in Hx.
    apply elem_of_cons in Hx as [->|Hx%list_elem_of_singleton]; [|by subst].
    vm_compute in Hk'. injection Hk' as <-. vm_compute. lia.
  - apply lookup_singleton_Some in Hp as [_ [=]].
Qed.

Lemma inline_member_is_never_returned_witness :
  (∀ fuel m, getSchemasByEndpoints MoreExamples.inlineDocument fuel ["/pets"] ≠ Returns m) ∧
  getSchemasByEndpoints MoreExamples.inlineDocument 2 ["/pets"] = Throws UndefinedRef.
Proof.
  destruct (inline_member_is_never_returned MoreExamples.inlineDocument ["/pets"] "/pets"
              (Examples.operationWithBody (Examples.pointer "Pet") Examples.okResponses)
              ["Pet"] "Pet") as [Hnever Hthrows].
  - left.
  - reflexivity.
  - exists [Examples.pointer "Pet"]. split; [reflexivity|]. by repeat constructor.
  - left.
  - exists "Pet", (Some [("base", SAllOf [Examples.pointer "Animal"; SObject None])]).
    split_and!; [done|reflexivity|]. exists (SObject None). split; [|done].
    vm_compute. right. left.
  - split; [exact Hnever|]. apply Hthrows; [exact inlineDocument_Acyclic|].
    vm_compute. lia.
Defined.

(** ** Listed endpoints *)

Lemma find_unique {A} (P : A → bool) (l : list A) x :
  x ∈ l → P x = true → (∀ y, y ∈ l → P y = true → y = x) → List.find P l = Some x.
Proof.
  induction l as [|y l IH]; intros Hx HP Huniq; [by apply elem_of_nil in Hx|].
  simpl. destruct (P y) eqn:Hy.
  - f_equal. apply Huniq; [left|done].
  - apply elem_of_cons in Hx as [->|Hx]; [congruence|].
    apply IH; [done..|]. intros z Hz. apply Huniq. by right.
Qed.

Lemma NoDup_fst_functional {A} (l : list (string * A)) k a b :
  NoDup l.*1 → (k, a) ∈ l → (k, b) ∈ l → a = b.
Proof.
  induction l as [|[k0 a0] l IH]; intros Hnd Ha Hb; [by apply elem_of_nil in Ha|].
  apply NoDup_cons in Hnd as [Hk0 Hnd]. simpl in Hk0.
  apply elem_of_cons in Ha as [Ha|Ha]; apply elem_of_cons in Hb as [Hb|Hb].
  - congruence.
  - injection Ha as -> ->. destruct Hk0. apply list_elem_of_fmap. by exists (k0, b).
  - injection Hb as -> ->. destruct Hk0. apply list_elem_of_fmap. by exists (k0, a).
  - by apply IH.
Qed.

(** X13: when no path key is a suffix of another one (and no key is
    there twice), every path is listed by [getEndpoints] and, taken as
    endpoint, resolves to the operation of its own path item: the first
    present of GET, POST, PUT and DELETE. *)
Theorem listed_endpoint_resolves_to_its_path (spec : IOpenAPI3)
    (key : string) (pathItem : PathItem) :
  NoDup (pathKeys spec) →
  (∀ k1 k2, k1 ∈ pathKeys spec → k2 ∈ pathKeys spec → isSuffixOf k1 k2 → k1 = k2) →
  (key, pathItem) ∈ default [] (paths spec) →
  key ∈ getEndpoints spec ∧
  getOperationByEndpoint spec key =
    firstPresent [http_get pathItem; http_post pathItem;
                  http_put pathItem; http_delete pathItem].
Proof.
  unfold pathKeys, getEndpoints, getOperationByEndpoint.
  destruct (paths spec) as [ps|]; simpl; [|by intros _ _ ?%elem_of_nil].
  intros Hnd Hfree Hin.
  assert (key ∈ ps.*1) as Hkey by (apply list_elem_of_fmap; by exists (key, pathItem)).
  split; [by rewrite merge_sort_Permutation|].
  rewrite (find_unique _ ps (key, pathItem)); [|done|..].
  - by destruct (http_get pathItem), (http_post pathItem), (http_put pathItem),
      (http_delete pathItem).
  - apply endsWith_suffix. by exists "".
  - intros [key' item'] Hin' Hends%endsWith_suffix.
    assert (key = key') as <-.
    { apply Hfree; [done| |done]. apply list_elem_of_fmap. by exists (key', item'). }
    f_equal. by eapply NoDup_fst_functional.
Qed.

Lemma listed_endpoint_resolves_to_its_path_witness :
  "/api/orders" ∈ getEndpoints MoreExamples.shopDocument ∧
  getOperationByEndpoint MoreExamples.shopDocument "/api/orders"
  = Some MoreExamples.richOperation.
Proof.
  apply (listed_endpoint_resolves_to_its_path MoreExamples.shopDocument "/api/orders"
           (Examples.postOnly MoreExamples.richOperation)).
  - vm_compute. repeat constructor; set_solver.
  - intros k1 k2 Hk1 Hk2 Hsuffix%endsWith_suffix. vm_compute in Hk1, Hk2.
    apply elem_of_cons in Hk1 as [->|Hk1%list_elem_of_singleton];
      apply elem_of_cons in Hk2 as [->|Hk2%list_elem_of_singleton]; subst;
      try done; vm_compute in Hsuffix; discriminate.
  - right. left.
Defined.
